(** * OpenORF search front end: highlighting, cue parsing and snippet windows

    A shallow embedding of the pure parts of the web client
    ([highlightText], [TVSegment.parseSubtitles],
    [TVSegment.getMatchingSubtitles], [TVSegment.createChunk] and
    [MainPage.search]) together with the JavaScript built-ins they call.

    Conventions.
    - A JavaScript string is the list of its UTF-16 code units.
    - A JavaScript number used as an index or a length is a [Z]; the
      sentinel [-1] of [indexOf] is kept as it is.
    - An array is a list; a [Set] is the list of its elements in insertion
      order, without repetition.
    - A [while] loop that the source does not bound takes a fuel argument
      and answers [None] when the fuel runs out.
    - Reading [a[i]] outside an array gives [None] (JavaScript's
      [undefined]). *)

From Stdlib Require Import List ZArith NArith Bool Lia Permutation Sorted.
From Stdlib Require Strings.String Strings.Ascii.
From Stdlib Require DecimalString DecimalPos DecimalZ.
Import ListNotations String.StringSyntax.
Bind Scope string_scope with String.string.
Open Scope Z_scope.

(** ** JavaScript built-ins *)

Abbreviation CodeUnit := N (only parsing).
Abbreviation str := (list N) (only parsing).

(** ASCII literals, for examples. *)
Definition u (s : String.string) : str :=
  map Ascii.N_of_ascii (String.list_ascii_of_string s).
Definition nl : str := [10%N].

Definition len {A : Type} (l : list A) : Z := Z.of_nat (length l).

Fixpoint str_eqb (a b : str) : bool :=
  match a, b with
  | [], [] => true
  | x :: a', y :: b' => N.eqb x y && str_eqb a' b'
  | _, _ => false
  end.

(** [a[i]]. *)
Definition get {A : Type} (l : list A) (i : Z) : option A :=
  if i <? 0 then None else nth_error l (Z.to_nat i).

(** Relative index of [slice]: a negative argument counts from the end,
    and the result is clamped to [0 .. n]. *)
Definition relIndex (n i : Z) : Z :=
  if i <? 0 then Z.max (n + i) 0 else Z.min i n.

(** [l.slice(s, e)], for strings and arrays alike. *)
Definition slice {A : Type} (l : list A) (s e : Z) : list A :=
  let from := relIndex (len l) s in
  let to := relIndex (len l) e in
  firstn (Z.to_nat (to - from)) (skipn (Z.to_nat from) l).

(** [l.slice(s)]. *)
Definition sliceFrom {A : Type} (l : list A) (s : Z) : list A :=
  slice l s (len l).

Fixpoint isPrefix (p s : str) : bool :=
  match p, s with
  | [], _ => true
  | _ :: _, [] => false
  | c :: p', d :: s' => N.eqb c d && isPrefix p' s'
  end.

(** Smallest position at or after [k] where [value] occurs, [s] being the
    suffix of the searched string that starts at position [k]. *)
Fixpoint stringIndexOf (s value : str) (k : Z) : Z :=
  if isPrefix value s then k
  else match s with
       | [] => -1
       | _ :: s' => stringIndexOf s' value (k + 1)
       end.

(** [s.indexOf(value, pos)]: the position is clamped to [0 .. s.length]. *)
Definition indexOf (s value : str) (pos : Z) : Z :=
  let from := Z.min (Z.max pos 0) (len s) in
  stringIndexOf (skipn (Z.to_nat from) s) value from.

(** [s.includes(value)]. *)
Definition includes (s value : str) : bool :=
  negb (indexOf s value 0 =? -1).

(** [s.split(sep)] for a non-empty separator: [cur] is the piece being
    read, in reverse; [skip] counts the code units of a separator that
    was recognised and is still to be passed over. *)
Fixpoint splitAux (sep : str) (cur : str) (skip : nat) (s : str) : list str :=
  match s with
  | [] => [rev cur]
  | c :: s' =>
      match skip with
      | S k => splitAux sep cur k s'
      | O =>
          if isPrefix sep s
          then rev cur :: splitAux sep [] (length sep - 1) s'
          else splitAux sep (c :: cur) O s'
      end
  end.

Definition split (s sep : str) : list str :=
  match sep with
  | [] => map (fun c => [c]) s
  | _ :: _ => splitAux sep [] O s
  end.

(** [l.join(sep)]. *)
Definition join (l : list str) (sep : str) : str :=
  match l with
  | [] => []
  | x :: r => x ++ flat_map (fun y => sep ++ y) r
  end.

(** [l.sort(cmp)]: the sort is stable; an element goes before the first
    one it does not compare greater than. *)
Fixpoint insertSorted {A : Type} (cmp : A -> A -> Z) (x : A) (l : list A) : list A :=
  match l with
  | [] => [x]
  | y :: r => if cmp x y <=? 0 then x :: l else y :: insertSorted cmp x r
  end.

Definition sort {A : Type} (cmp : A -> A -> Z) (l : list A) : list A :=
  fold_right (insertSorted cmp) [] l.

(** [l.map((x, index) => f x index)]. *)
Fixpoint mapi {A B : Type} (f : A -> Z -> B) (l : list A) (index : Z) : list B :=
  match l with
  | [] => []
  | x :: r => f x index :: mapi f r (index + 1)
  end.

(** Lower-casing of one code unit, on Basic Latin, Latin-1 and U+0130
    (LATIN CAPITAL LETTER I WITH DOT ABOVE, whose lower case is the two
    code units U+0069 U+0307); other code units are left as they are. *)
Definition lowerUnit (c : CodeUnit) : str :=
  if ((0x41 <=? c) && (c <=? 0x5A))%N then [(c + 0x20)%N]
  else if ((0xC0 <=? c) && (c <=? 0xDE) && negb (c =? 0xD7))%N then [(c + 0x20)%N]
  else if (c =? 0x130)%N then [0x69%N; 0x307%N]
  else [c].

Definition String_toLowerCase (s : str) : str := flat_map lowerUnit s.

(** White space and line terminators removed by [trim]. *)
Definition isWhiteSpace (c : CodeUnit) : bool :=
  (((0x09 <=? c) && (c <=? 0x0D)) || (c =? 0x20) || (c =? 0xA0) || (c =? 0x1680)
   || ((0x2000 <=? c) && (c <=? 0x200A)) || (c =? 0x2028) || (c =? 0x2029)
   || (c =? 0x202F) || (c =? 0x205F) || (c =? 0x3000) || (c =? 0xFEFF))%N.

Fixpoint trimStart (s : str) : str :=
  match s with
  | [] => []
  | c :: s' => if isWhiteSpace c then trimStart s' else s
  end.

Definition trim (s : str) : str := rev (trimStart (rev (trimStart s))).

(** [String(n)] for an integer [n]: its decimal digits, after a minus
    sign when it is negative. *)
Definition numberToString (n : Z) : str :=
  u (DecimalString.NilZero.string_of_int (Z.to_int n)).

(** ** [formatDuration]

    The duration is a whole number of seconds that a JS number holds
    exactly ([Number.isSafeInteger]); on these the division is rounded to
    less than the distance to the next multiple of 3600, so that
    [Math.floor(a / b)] is the floor of the quotient, and [a % b] is the
    remainder with the sign of [a]. *)
Definition formatDuration (durationInSeconds : Z) : str :=
  if durationInSeconds =? 0 then u "0s"
  else
    let hours := durationInSeconds / 3600 in
    let minutes := Z.rem durationInSeconds 3600 / 60 in
    let seconds := Z.rem durationInSeconds 60 in
    let parts := [] in
    let parts := if 0 <? hours then parts ++ [numberToString hours ++ u "h"] else parts in
    let parts := if 0 <? minutes then parts ++ [numberToString minutes ++ u "m"] else parts in
    let parts := if 0 <? seconds then parts ++ [numberToString seconds ++ u "s"] else parts in
    join parts (u " ").

(** ** Option as the error monad of the embedding *)

Definition bind {A B : Type} (m : option A) (f : A -> option B) : option B :=
  match m with
  | Some a => f a
  | None => None
  end.

Notation "x <- m ;; k" := (bind m (fun x => k))
  (at level 100, m at next level, k at level 200, right associativity).

Fixpoint mapM {A B : Type} (f : A -> option B) (l : list A) : option (list B) :=
  match l with
  | [] => Some []
  | x :: r => y <- f x ;; ys <- mapM f r ;; Some (y :: ys)
  end.

(** ** Search tokens (declared in [data/search.ts]; only [value] is read) *)

Record SearchToken : Type := { value : str }.

(** ** [highlightText] *)

Record Span : Type := { start : Z; end_ : Z }.

(** A chunk of the output: a raw slice, or a slice inside [<mark>]. *)
Inductive Chunk : Type :=
| Raw (s : str)
| Marked (s : str).

Definition chunkContent (c : Chunk) : str :=
  match c with
  | Raw s => s
  | Marked s => s
  end.

Definition renderChunk (c : Chunk) : str :=
  match c with
  | Raw s => s
  | Marked s => u "<mark>" ++ s ++ u "</mark>"
  end.

(** The inner [while] loop of one token: each turn looks for the next
    occurrence at or after [pos] and moves past it. *)
Fixpoint findPositions (fuel : nat) (lowerText v : str) (pos : Z) : option (list Span) :=
  match fuel with
  | O => None
  | S fuel' =>
      let pos' := indexOf lowerText v pos in
      if pos' =? -1 then Some []
      else
        rest <- findPositions fuel' lowerText v (pos' + len v) ;;
        Some ({| start := pos'; end_ := pos' + len v |} :: rest)
  end.

(** [tokens.flatMap(...)]. *)
Fixpoint flatMapM {A B : Type} (f : A -> option (list B)) (l : list A) : option (list B) :=
  match l with
  | [] => Some []
  | x :: r => ys <- f x ;; zs <- flatMapM f r ;; Some (ys ++ zs)
  end.

Definition lastOf {A : Type} (l : list A) : option A :=
  match l with
  | [] => None
  | x :: r => Some (last r x)
  end.

(** The reducer of [matches.reduce]: [last.end = ...] updates the last
    element of [acc] in place.  Every span is a fresh object that occurs
    once in [matches], so no other element sees the update. *)
Definition mergeStep (acc : list Span) (m : Span) : list Span :=
  match lastOf acc with
  | Some l =>
      if start m <=? end_ l
      then removelast acc ++ [{| start := start l; end_ := Z.max (end_ l) (end_ m) |}]
      else acc ++ [m]
  | None => acc ++ [m]
  end.

Definition mergeMatches (ms : list Span) : list Span :=
  fold_left mergeStep ms [].

Definition byStart (a b : Span) : Z := start a - start b.

(** Sort and merge: the two steps between the search and the output. *)
Definition mergeSpans (ms : list Span) : list Span :=
  mergeMatches (sort byStart ms).

(** The body of [mergedMatches.forEach]: state is [(chunks, lastIndex)]. *)
Definition buildStep (text : str) (st : list Chunk * Z) (m : Span) : list Chunk * Z :=
  (fst st ++ [Raw (slice text (snd st) (start m)); Marked (slice text (start m) (end_ m))],
   end_ m).

Definition buildChunks (text : str) (merged : list Span) : list Chunk :=
  let st := fold_left (buildStep text) merged ([], 0) in
  fst st ++ [Raw (sliceFrom text (snd st))].

Section Engine.

(** [String.prototype.toLowerCase].  The engine is parametric in it;
    [String_toLowerCase] is the instance used to evaluate examples. *)
Variable toLowerCase : str -> str.

(** The spans of one token in a text (the callback of [flatMap]). *)
Definition findSpans (fuel : nat) (text : str) (token : SearchToken) : option (list Span) :=
  findPositions fuel (toLowerCase text) (value token) 0.

(** All spans of all tokens, in token order. *)
Definition findMatches (fuel : nat) (text : str) (tokens : list SearchToken) : option (list Span) :=
  flatMapM (findSpans fuel text) tokens.

(** The chunks pushed by [highlightText]; with no token the text is
    returned as it is, which is the single raw chunk. *)
Definition highlightChunks (fuel : nat) (text : str) (tokens : list SearchToken)
  : option (list Chunk) :=
  match tokens with
  | [] => Some [Raw text]
  | _ :: _ =>
      found <- findMatches fuel text tokens ;;
      Some (buildChunks text (mergeSpans found))
  end.

(** [chunks.join("")]. *)
Definition highlightText (fuel : nat) (text : str) (tokens : list SearchToken) : option str :=
  chunks <- highlightChunks fuel text tokens ;;
  Some (concat (map renderChunk chunks)).

End Engine.

(** ** [TVSegment]: cue parsing and snippet windows *)

Module TVSegment.

Record ParsedSubtitle : Type := { index : Z; time : str; text : str }.

(** One window of the transcript: [{ matches, context }]. *)
Record SubtitleChunk : Type :=
  { matches : list ParsedSubtitle; context : list ParsedSubtitle }.

(** The properties of the element that the two methods read;
    [subtitles] is [segment.subtitles], which may be absent. *)
Record TVSegment : Type :=
  { subtitles : option str;
    searchTokens : list SearchToken;
    showFullTranscript : bool }.

(** The callback of [map] in [parseSubtitles]; [None] is [null].
    [lines[1]] exists whenever the length test passes. *)
Definition parseBlock (block : str) (index : Z) : option ParsedSubtitle :=
  let lines := split block nl in
  if len lines <? 3 then None
  else Some {| index := index;
               time := nth 1 lines [];
               text := join (sliceFrom lines 2) (u " ") |}.

(** [.filter((sub) => sub !== null)]. *)
Definition filterNonNull {A : Type} (l : list (option A)) : list A :=
  flat_map (fun o => match o with Some x => [x] | None => [] end) l.

Definition parseSubtitles (seg : TVSegment) : list ParsedSubtitle :=
  match subtitles seg with
  | None => []
  | Some [] => []
  | Some s => filterNonNull (mapi parseBlock (sliceFrom (split s (nl ++ nl)) 1) 0)
  end.

(** [Set<number>]: [add], [has] and [new Set(array)]. *)
Definition setHas (s : list Z) (x : Z) : bool := existsb (Z.eqb x) s.
Definition setAdd (s : list Z) (x : Z) : list Z := if setHas s x then s else s ++ [x].
Definition setOf (l : list Z) : list Z := fold_left setAdd l [].

Definition createChunk (subs : list ParsedSubtitle) (matchIndices : list Z) (contextSize : Z)
  : option SubtitleChunk :=
  firstMatch <- get matchIndices 0 ;;
  lastMatch <- get matchIndices (len matchIndices - 1) ;;
  let startIdx := Z.max 0 (firstMatch - contextSize) in
  let endIdx := Z.min (len subs - 1) (lastMatch + contextSize) in
  let matchSet := setOf matchIndices in
  ms <- mapM (get subs) matchIndices ;;
  let contextRange := slice subs startIdx (endIdx + 1) in
  let ctx := filter (fun sub => negb (setHas matchSet (index sub))) contextRange in
  Some {| matches := ms; context := ctx |}.

(** The variables that the grouping loop updates. *)
Record GroupState : Type :=
  { currentChunkStart : Z;
    currentChunkMatches : list Z;
    chunks : list SubtitleChunk }.

Definition contextSize : Z := 5.

(** The body of [sortedIndices.forEach].  The last element of an empty
    group is [undefined]; arithmetic on it is outside the model. *)
Definition groupStep (subs : list ParsedSubtitle) (st : GroupState) (idx : Z)
  : option GroupState :=
  if currentChunkStart st =? -1 then
    Some {| currentChunkStart := idx;
            currentChunkMatches := [idx];
            chunks := chunks st |}
  else
    l <- lastOf (currentChunkMatches st) ;;
    if idx <=? l + contextSize * 2 then
      Some {| currentChunkStart := currentChunkStart st;
              currentChunkMatches := currentChunkMatches st ++ [idx];
              chunks := chunks st |}
    else
      c <- createChunk subs (currentChunkMatches st) contextSize ;;
      Some {| currentChunkStart := idx;
              currentChunkMatches := [idx];
              chunks := chunks st ++ [c] |}.

Fixpoint groupLoop (subs : list ParsedSubtitle) (sortedIndices : list Z) (st : GroupState)
  : option GroupState :=
  match sortedIndices with
  | [] => Some st
  | idx :: r => st' <- groupStep subs st idx ;; groupLoop subs r st'
  end.

(** The loop and the push of the last group. *)
Definition groupChunks (subs : list ParsedSubtitle) (sortedIndices : list Z)
  : option (list SubtitleChunk) :=
  st <- groupLoop subs sortedIndices
          {| currentChunkStart := -1; currentChunkMatches := []; chunks := [] |} ;;
  if 0 <? len (currentChunkMatches st) then
    c <- createChunk subs (currentChunkMatches st) contextSize ;;
    Some (chunks st ++ [c])
  else Some (chunks st).

Section Engine.

Variable toLowerCase : str -> str.

(** [searchTokens.some((token) => lower(sub.text).includes(token.value))]. *)
Definition tokenMatches (tokens : list SearchToken) (sub : ParsedSubtitle) : bool :=
  existsb (fun token => includes (toLowerCase (text sub)) (value token)) tokens.

(** [subtitles.forEach((sub, idx) => ...)] filling [matchingIndices]. *)
Fixpoint collectMatching (tokens : list SearchToken) (subs : list ParsedSubtitle)
    (idx : Z) (matchingIndices : list Z) : list Z :=
  match subs with
  | [] => matchingIndices
  | sub :: r =>
      collectMatching tokens r (idx + 1)
        (if tokenMatches tokens sub then setAdd matchingIndices idx else matchingIndices)
  end.

(** The method after its first line, as a function of the parsed cues. *)
Definition matchingSubtitlesOf (subs : list ParsedSubtitle) (showFull : bool)
    (tokens : list SearchToken) : option (list SubtitleChunk) :=
  if showFull then
    Some [ {| matches := match tokens with
                         | [] => []
                         | _ :: _ => filter (tokenMatches tokens) subs
                         end;
              context := subs |} ]
  else
    match tokens with
    | [] => Some []
    | _ :: _ =>
        let matchingIndices := collectMatching tokens subs 0 [] in
        match matchingIndices with
        | [] => Some []
        | _ :: _ => groupChunks subs (sort Z.sub matchingIndices)
        end
    end.

Definition getMatchingSubtitles (seg : TVSegment) : option (list SubtitleChunk) :=
  matchingSubtitlesOf (parseSubtitles seg) (showFullTranscript seg) (searchTokens seg).

End Engine.

(** [renderSubtitles], snippet mode: the cues of one window in the order
    in which they are shown,
    [[...chunk.context, ...chunk.matches].sort((a, b) => a.index - b.index)]. *)
Definition snippetCues (chunk : SubtitleChunk) : list ParsedSubtitle :=
  sort (fun a b => index a - index b) (context chunk ++ matches chunk).

(** [renderSubtitles], full-transcript mode: every cue of the context with
    the flag [chunk.matches.some((m) => m.index === sub.index)] that
    [renderSubtitleItem] receives as [isMatch]. *)
Definition fullTranscriptItems (chunk : SubtitleChunk) : list (ParsedSubtitle * bool) :=
  map (fun sub => (sub, existsb (fun m => index m =? index sub) (matches chunk)))
      (context chunk).

End TVSegment.

(** ** [MainPage.search] *)

Module MainPage.

(** [Set<string>]: [has], [add], [delete] and [new Set(array)], on the
    list of the elements in insertion order. *)
Definition strSetHas (s : list str) (x : str) : bool := existsb (str_eqb x) s.
Definition strSetAdd (s : list str) (x : str) : list str :=
  if strSetHas s x then s else s ++ [x].
Definition strSetDelete (s : list str) (x : str) : list str :=
  filter (fun y => negb (str_eqb x y)) s.
Definition strSetOf (l : list str) : list str := fold_left strSetAdd l [].

(** The comparison of [sort()] without a comparator, on strings: the
    order of the code units, a proper prefix first. *)
Fixpoint compareStrings (a b : str) : Z :=
  match a, b with
  | [], [] => 0
  | [], _ :: _ => -1
  | _ :: _, [] => 1
  | x :: a', y :: b' =>
      if (x <? y)%N then -1
      else if (y <? x)%N then 1
      else compareStrings a' b'
  end.

Section Page.

(** [SimplifiedTVItem] is declared in [data/tv.ts]; the page reads its
    [title].  [search] of [data/search.ts] is called on queries of
    three characters or more. *)
Variable SimplifiedTVItem : Type.
Variable title : SimplifiedTVItem -> str.

Record SearchResult : Type :=
  { items : list SimplifiedTVItem; tokens : list SearchToken }.

Variable data_search : str -> list SimplifiedTVItem -> bool -> SearchResult.

(** The state of the page that [search] reads and writes. *)
Record MainPage : Type :=
  { data : list SimplifiedTVItem;
    searchResult : SearchResult;
    subtitles : bool;
    query : str;
    selectedBroadcasts : list str }.

(** [selectedBroadcasts.has(item.title)]. *)
Definition isSelected (p : MainPage) (item : SimplifiedTVItem) : bool :=
  existsb (str_eqb (title item)) (selectedBroadcasts p).

Definition setSearchResult (p : MainPage) (r : SearchResult) : MainPage :=
  {| data := data p; searchResult := r; subtitles := subtitles p;
     query := query p; selectedBroadcasts := selectedBroadcasts p |}.

Definition search (p : MainPage) : MainPage :=
  if len (query p) <? 3 then
    let filteredItems :=
      if 0 <? len (selectedBroadcasts p) then filter (isSelected p) (data p)
      else data p in
    setSearchResult p {| items := filteredItems; tokens := [] |}
  else
    let result := data_search (query p) (data p) (subtitles p) in
    let filteredItems :=
      if 0 <? len (selectedBroadcasts p) then filter (isSelected p) (items result)
      else items result in
    setSearchResult p {| items := filteredItems; tokens := tokens result |}.

(** [handleSearchInput]: the query is the trimmed value of the input
    field; [search] runs when the timer fires. *)
Definition handleSearchInput (inputValue : str) (p : MainPage) : MainPage :=
  search {| data := data p; searchResult := searchResult p; subtitles := subtitles p;
            query := trim inputValue; selectedBroadcasts := selectedBroadcasts p |}.

(** [getUniqueBroadcasts]: [[...new Set(data.map((item) => item.title))].sort()]. *)
Definition getUniqueBroadcasts (p : MainPage) : list str :=
  sort compareStrings (strSetOf (map title (data p))).

(** [toggleBroadcast]: the title leaves the selection if it is in it and
    joins it otherwise; then [search] runs. *)
Definition toggleBroadcast (t : str) (p : MainPage) : MainPage :=
  let newSelected :=
    if strSetHas (selectedBroadcasts p) t
    then strSetDelete (selectedBroadcasts p) t
    else strSetAdd (selectedBroadcasts p) t in
  search {| data := data p; searchResult := searchResult p; subtitles := subtitles p;
            query := query p; selectedBroadcasts := newSelected |}.

End Page.

End MainPage.

(** * Definitions used by the proofs *)

(** The merge as a sweep with one open span: [cur] is the last element
    of the accumulator of [mergeMatches]. *)
Fixpoint sweep (cur : Span) (rest : list Span) : list Span :=
  match rest with
  | [] => [cur]
  | m :: r =>
      if start m <=? end_ cur
      then sweep {| start := start cur; end_ := Z.max (end_ cur) (end_ m) |} r
      else cur :: sweep m r
  end.

Definition wfSpan (m : Span) : Prop := start m <= end_ m.

Definition leStart (a b : Span) : Prop := start a <= start b.

(** Spans in ascending order with at least one position between the
    end of one and the start of the next; the first starts after [e]. *)
Fixpoint disjointFrom (e : Z) (l : list Span) : Prop :=
  match l with
  | [] => True
  | m :: r => e < start m /\ start m <= end_ m /\ disjointFrom (end_ m) r
  end.

(** The weaker order that the output loop needs. *)
Fixpoint ascendingFrom (lo : Z) (l : list Span) : Prop :=
  match l with
  | [] => True
  | m :: r => lo <= start m /\ start m <= end_ m /\ ascendingFrom (end_ m) r
  end.

(** [a] lies inside [m]. *)
Definition covers (m a : Span) : Prop := start m <= start a /\ end_ a <= end_ m.



(** The cues carry their positions as indices: the cue at position
    [k + i] of the transcript has index [k + i]. *)
Fixpoint denseFrom (k : Z) (subs : list TVSegment.ParsedSubtitle) : Prop :=
  match subs with
  | [] => True
  | sub :: r => TVSegment.index sub = k /\ denseFrom (k + 1) r
  end.

Definition dense (subs : list TVSegment.ParsedSubtitle) : Prop := denseFrom 0 subs.

(** The positions, counted from [k], of the cues that contain a token. *)
Fixpoint matchingFrom (toLowerCase : str -> str) (tokens : list SearchToken) (k : Z)
    (subs : list TVSegment.ParsedSubtitle) : list Z :=
  match subs with
  | [] => []
  | sub :: r =>
      if TVSegment.tokenMatches toLowerCase tokens sub
      then k :: matchingFrom toLowerCase tokens (k + 1) r
      else matchingFrom toLowerCase tokens (k + 1) r
  end.

(** The groups that the loop of [getMatchingSubtitles] forms: [cur] is
    the open group and [l] its last index. *)
Fixpoint groupsFrom (cur : list Z) (l : Z) (idxs : list Z) : list (list Z) :=
  match idxs with
  | [] => [cur]
  | idx :: r =>
      if idx <=? l + TVSegment.contextSize * 2
      then groupsFrom (cur ++ [idx]) idx r
      else cur :: groupsFrom [idx] idx r
  end.

Definition groupsOf (idxs : list Z) : list (list Z) :=
  match idxs with
  | [] => []
  | idx :: r => groupsFrom [idx] idx r
  end.

(** Each index of a group is at most [2 * contextSize] after the one
    before it. *)
Fixpoint chained (g : list Z) : Prop :=
  match g with
  | [] => True
  | x :: r =>
      match r with
      | [] => True
      | y :: _ => y <= x + TVSegment.contextSize * 2
      end /\ chained r
  end.

(** No group is empty, every group is chained, and the first index of a
    group is more than [2 * contextSize] after the last of the group
    before it. *)
Fixpoint linked (gs : list (list Z)) : Prop :=
  match gs with
  | [] => True
  | g :: r =>
      g <> [] /\ chained g /\
      match r with
      | [] => True
      | g' :: _ =>
          forall l f, lastOf g = Some l -> hd_error g' = Some f ->
                      l + TVSegment.contextSize * 2 < f
      end /\ linked r
  end.

(** [w] is the window of the group [g]: its matches are the cues at the
    positions of [g]; its context cues lie at positions of the range
    [firstMatch - contextSize .. lastMatch + contextSize], clamped to the
    transcript, and their indices are not in [g]; and when the cues carry
    their positions as indices, the context is every cue of that range
    whose position is not in [g]. *)
Definition windowOf (subs : list TVSegment.ParsedSubtitle) (g : list Z)
    (w : TVSegment.SubtitleChunk) : Prop :=
  exists firstMatch lastMatch,
    hd_error g = Some firstMatch /\ lastOf g = Some lastMatch /\
    mapM (get subs) g = Some (TVSegment.matches w) /\
    (forall sub,
        In sub (TVSegment.context w) ->
        exists p,
          Z.max 0 (firstMatch - TVSegment.contextSize) <= p
            <= Z.min (len subs - 1) (lastMatch + TVSegment.contextSize) /\
          get subs p = Some sub /\ ~ In (TVSegment.index sub) g) /\
    (dense subs ->
     forall p sub,
       Z.max 0 (firstMatch - TVSegment.contextSize) <= p
         <= Z.min (len subs - 1) (lastMatch + TVSegment.contextSize) ->
       get subs p = Some sub ->
       (In sub (TVSegment.context w) <-> ~ In p g)).

(** Transcripts for the scenarios: cues [0 .. n], indexed by position;
    the cues at the positions [hits] contain the word of the query. *)
Definition cueAt (hits : list Z) (i : Z) : TVSegment.ParsedSubtitle :=
  {| TVSegment.index := i;
     TVSegment.time := u "00:00:00.000 --> 00:00:04.000";
     TVSegment.text := if TVSegment.setHas hits i
                       then u "Die Wahl im Parlament"
                       else u "Das Wetter" |}.

Definition cuesUpTo (n : nat) (hits : list Z) : list TVSegment.ParsedSubtitle :=
  map (fun i => cueAt hits (Z.of_nat i)) (seq 0 (S n)).

(** The token of the scenarios. *)
Definition wahl : SearchToken := {| value := u "wahl" |}.

(** A transcript with a block that is not a cue: the header, the block
    [NOTE], then two cues. *)
Definition rawWithNote : str :=
  u "WEBVTT" ++ nl ++ nl ++ u "NOTE" ++ nl ++ nl
    ++ u "1" ++ nl ++ u "00:00:01.000 --> 00:00:04.000" ++ nl ++ u "Guten Abend"
    ++ nl ++ nl
    ++ u "2" ++ nl ++ u "00:00:04.000 --> 00:00:08.000" ++ nl ++ u "Die Wahl".

(** The two cues of [rawWithNote], with the indices that [parseSubtitles]
    gives them: the positions of their blocks, 1 and 2. *)
Definition gutenAbend : TVSegment.ParsedSubtitle :=
  {| TVSegment.index := 1;
     TVSegment.time := u "00:00:01.000 --> 00:00:04.000";
     TVSegment.text := u "Guten Abend" |}.

Definition dieWahl : TVSegment.ParsedSubtitle :=
  {| TVSegment.index := 2;
     TVSegment.time := u "00:00:04.000 --> 00:00:08.000";
     TVSegment.text := u "Die Wahl" |}.

(** [v] occurs in [s] at position [q]: [s.slice(q, q + v.length)] is [v]. *)
Definition occursAt (s v : str) (q : Z) : Prop :=
  0 <= q /\ q + len v <= len s /\ slice s q (q + len v) = v.

(** The position [x] lies in the span [m]. *)
Definition inSpan (m : Span) (x : Z) : Prop := start m <= x < end_ m.

(** [a] ends before [b] starts, with at least one position between. *)
Definition gapBefore (a b : Span) : Prop := end_ a < start b.

(** [a] ends where [b] starts, or before. *)
Definition endsBefore (a b : Span) : Prop := end_ a <= start b.

Definition isMarked (c : Chunk) : bool :=
  match c with
  | Raw _ => false
  | Marked _ => true
  end.

(** A decimal digit. *)
Definition isDigit (c : N) : Prop := (48 <= c <= 57)%N.

(** Parts of a duration, each a number and the letter of its unit, and
    the text they are shown as. *)
Definition renderPart (part : Z * N) : str := numberToString (fst part) ++ [snd part].

Definition renderParts (parts : list (Z * N)) : str :=
  join (map renderPart parts) (u " ").

Definition durationParts (d : Z) : list (Z * N) :=
  filter (fun part => 0 <? fst part)
         [ (d / 3600, 104%N); (Z.rem d 3600 / 60, 109%N); (Z.rem d 60, 115%N) ].

(** The letters of the units, and a part as [formatDuration] pushes it. *)
Definition unitLetter (c : N) : Prop := c = 104%N \/ c = 109%N \/ c = 115%N.

Definition properPart (part : Z * N) : Prop := 0 <= fst part /\ unitLetter (snd part).

(** [Number.isSafeInteger]. *)
Definition safeInteger (n : Z) : Prop := - (2 ^ 53 - 1) <= n <= 2 ^ 53 - 1.

(** * Lists, slices and [indexOf] *)

Lemma len_nonneg {A : Type} (l : list A) : 0 <= len l.
Proof. unfold len. lia. Qed.

Lemma len_app {A : Type} (l r : list A) : len (l ++ r) = len l + len r.
Proof. unfold len. rewrite length_app. lia. Qed.

Lemma len_cons {A : Type} (x : A) (l : list A) : len (x :: l) = len l + 1.
Proof. unfold len. simpl length. lia. Qed.

Lemma lastOf_snoc {A : Type} (l : list A) (x : A) : lastOf (l ++ [x]) = Some x.
Proof.
  destruct l as [|a l]; simpl; [reflexivity|].
  f_equal. apply last_last.
Qed.

Lemma relIndex_nonneg (n i : Z) : 0 <= i -> relIndex n i = Z.min i n.
Proof.
  intros Hi. unfold relIndex.
  destruct (Z.ltb_spec i 0); [lia | reflexivity].
Qed.

Lemma firstn_skipn_split {A : Type} (l : list A) (a b : nat) :
  (a <= b)%nat -> firstn (b - a) (skipn a l) ++ skipn b l = skipn a l.
Proof.
  intros Hab.
  replace (skipn b l) with (skipn (b - a) (skipn a l)).
  - apply firstn_skipn.
  - rewrite skipn_skipn. f_equal. lia.
Qed.

Lemma sliceFrom_skipn {A : Type} (l : list A) (a : Z) :
  0 <= a -> sliceFrom l a = skipn (Z.to_nat (Z.min a (len l))) l.
Proof.
  intros Ha. unfold sliceFrom, slice.
  pose proof (len_nonneg l) as Hl.
  rewrite (relIndex_nonneg _ a Ha), (relIndex_nonneg _ (len l) Hl).
  apply firstn_all2. rewrite length_skipn. unfold len in *. lia.
Qed.

Lemma sliceFrom_0 {A : Type} (l : list A) : sliceFrom l 0 = l.
Proof.
  rewrite sliceFrom_skipn by lia.
  pose proof (len_nonneg l). rewrite Z.min_l by lia. reflexivity.
Qed.

Lemma slice_firstn_skipn {A : Type} (l : list A) (a b : Z) :
  0 <= a -> 0 <= b ->
  slice l a b =
  firstn (Z.to_nat (Z.min b (len l)) - Z.to_nat (Z.min a (len l)))
         (skipn (Z.to_nat (Z.min a (len l))) l).
Proof.
  intros Ha Hb. unfold slice.
  rewrite (relIndex_nonneg _ a Ha), (relIndex_nonneg _ b Hb).
  f_equal. pose proof (len_nonneg l). lia.
Qed.

(** Two consecutive slices make one. *)
Lemma slice_sliceFrom {A : Type} (l : list A) (a b : Z) :
  0 <= a <= b -> slice l a b ++ sliceFrom l b = sliceFrom l a.
Proof.
  intros [Ha Hab].
  rewrite slice_firstn_skipn, !sliceFrom_skipn by lia.
  apply firstn_skipn_split. pose proof (len_nonneg l). lia.
Qed.

Lemma isPrefix_len (p s : str) : isPrefix p s = true -> len p <= len s.
Proof.
  revert s. induction p as [|c p IH]; intros s H.
  - pose proof (len_nonneg s). unfold len in *. simpl. lia.
  - destruct s as [|d s]; simpl in H; [discriminate|].
    apply andb_true_iff in H as [_ H]. apply IH in H.
    rewrite !len_cons. lia.
Qed.

Lemma stringIndexOf_bounds (v : str) (s : str) :
  forall k, stringIndexOf s v k = -1 \/
            (k <= stringIndexOf s v k /\ stringIndexOf s v k + len v <= k + len s).
Proof.
  induction s as [|c s IH]; intros k; simpl.
  - destruct (isPrefix v []) eqn:E; [right | left; reflexivity].
    apply isPrefix_len in E. lia.
  - destruct (isPrefix v (c :: s)) eqn:E.
    + right. apply isPrefix_len in E. lia.
    + destruct (IH (k + 1)) as [H | H]; [left; exact H | right].
      rewrite len_cons. lia.
Qed.

(** The position found by [indexOf] is [-1] or an occurrence that starts
    at or after the clamped position and ends inside the string. *)
Lemma indexOf_bounds (s v : str) (pos : Z) :
  indexOf s v pos = -1 \/
  (Z.min (Z.max pos 0) (len s) <= indexOf s v pos /\ indexOf s v pos + len v <= len s).
Proof.
  unfold indexOf.
  set (from := Z.min (Z.max pos 0) (len s)).
  destruct (stringIndexOf_bounds v (skipn (Z.to_nat from) s) from) as [H | [H1 H2]];
    [left; exact H | right].
  split; [exact H1|].
  pose proof (len_nonneg s).
  replace (len (skipn (Z.to_nat from) s)) with (len s - from) in H2; [lia|].
  unfold len. rewrite length_skipn. unfold len in from. lia.
Qed.

(** An empty search value is found at once, at the clamped position. *)
Lemma indexOf_empty (s : str) (pos : Z) :
  indexOf s [] pos = Z.min (Z.max pos 0) (len s).
Proof.
  unfold indexOf. destruct (skipn _ s); reflexivity.
Qed.

(** * The stable sort by a key *)

Section SortByKey.

Context {A : Type} (key : A -> Z).

Let cmp : A -> A -> Z := fun a b => key a - key b.
Let leKey : A -> A -> Prop := fun a b => key a <= key b.

Lemma insertSorted_perm (x : A) (l : list A) :
  Permutation (x :: l) (insertSorted cmp x l).
Proof.
  induction l as [|y r IH]; simpl; [reflexivity|].
  destruct (cmp x y <=? 0); [reflexivity|].
  rewrite perm_swap. apply perm_skip, IH.
Qed.

Lemma sort_perm (l : list A) : Permutation l (sort cmp l).
Proof.
  induction l as [|x r IH]; simpl; [reflexivity|].
  rewrite <- insertSorted_perm. apply perm_skip, IH.
Qed.

Lemma insertSorted_sorted (x : A) (l : list A) :
  StronglySorted leKey l -> StronglySorted leKey (insertSorted cmp x l).
Proof.
  induction 1 as [|y r Hr IH Hy]; simpl.
  - constructor; constructor.
  - destruct (Z.leb_spec (cmp x y) 0) as [Hc | Hc]; unfold cmp, leKey in *; simpl in *.
    + constructor; [constructor; assumption|].
      constructor; [lia|].
      eapply Forall_impl; [|exact Hy]. simpl. intros; lia.
    + constructor; [exact IH|].
      eapply Permutation_Forall; [apply insertSorted_perm|].
      constructor; [lia | exact Hy].
Qed.

Lemma sort_sorted (l : list A) : StronglySorted leKey (sort cmp l).
Proof.
  induction l as [|x r IH]; simpl; [constructor|].
  apply insertSorted_sorted, IH.
Qed.

(** A sorted list is left as it is. *)
Lemma sort_of_sorted (l : list A) : StronglySorted leKey l -> sort cmp l = l.
Proof.
  induction 1 as [|y r Hr IH Hy]; simpl; [reflexivity|].
  rewrite IH. destruct r as [|z r']; simpl; [reflexivity|].
  inversion Hy as [|? ? Hz _]; subst. unfold cmp, leKey in *; simpl in *.
  destruct (Z.leb_spec (key y - key z) 0); [reflexivity | lia].
Qed.

End SortByKey.

(** * The merge of spans *)

Lemma mergeStep_sweep (rest : list Span) :
  forall pre cur, fold_left mergeStep rest (pre ++ [cur]) = pre ++ sweep cur rest.
Proof.
  induction rest as [|m r IH]; intros pre cur; simpl; [reflexivity|].
  unfold mergeStep at 2. rewrite lastOf_snoc, removelast_last.
  destruct (start m <=? end_ cur).
  - apply IH.
  - rewrite IH, <- app_assoc. reflexivity.
Qed.

(** The reduction is the sweep that starts with the first span open. *)
Lemma mergeMatches_sweep (m : Span) (rest : list Span) :
  mergeMatches (m :: rest) = sweep m rest.
Proof.
  unfold mergeMatches. simpl. apply (mergeStep_sweep rest [] m).
Qed.

Lemma sweep_disjoint (rest : list Span) :
  forall cur e,
    e < start cur -> wfSpan cur -> Forall wfSpan rest ->
    Forall (leStart cur) rest -> StronglySorted leStart rest ->
    disjointFrom e (sweep cur rest).
Proof.
  unfold wfSpan, leStart.
  induction rest as [|m r IH]; intros cur e He Hc Hwf Hle Hs; simpl.
  - auto.
  - inversion Hwf as [|? ? Hm Hr]; subst.
    inversion Hle as [|? ? Hcm Hcr]; subst.
    inversion Hs as [|? ? Hsr Hmr]; subst.
    destruct (Z.leb_spec (start m) (end_ cur)).
    + apply IH; simpl; auto; try lia.
    + simpl. split; [exact He|]. split; [exact Hc|]. apply IH; auto.
Qed.

Lemma disjoint_ascending (l : list Span) :
  forall e lo, lo <= e + 1 -> disjointFrom e l -> ascendingFrom lo l.
Proof.
  induction l as [|m r IH]; simpl; intros e lo Hlo H; [exact I|].
  destruct H as (H1 & H2 & H3). repeat split; try lia.
  apply (IH (end_ m)); [lia | exact H3].
Qed.

(** Sorting and merging spans that start at 0 or later gives disjoint
    spans in ascending order. *)
Lemma mergeSpans_disjoint (ms : list Span) :
  Forall (fun m => 0 <= start m /\ start m <= end_ m) ms ->
  disjointFrom (-1) (mergeSpans ms).
Proof.
  intros H. unfold mergeSpans.
  pose proof (sort_perm start ms) as Hp.
  pose proof (sort_sorted start ms) as Hs.
  change (fun a b : Span => start a - start b) with byStart in Hp, Hs.
  apply (Permutation_Forall Hp) in H.
  destruct (sort byStart ms) as [|m r]; [exact I|].
  rewrite mergeMatches_sweep.
  inversion H as [|? ? [Hm0 Hm] Hr]; subst.
  inversion Hs as [|? ? Hsr Hmr]; subst.
  apply sweep_disjoint; auto; try lia.
  eapply Forall_impl; [|exact Hr]. intros a [_ Ha]. exact Ha.
Qed.

(** * The output loop of [highlightText] *)

Lemma buildStep_fold (text : str) (ms : list Span) :
  forall chunks lastIndex,
    0 <= lastIndex -> ascendingFrom lastIndex ms ->
    concat (map chunkContent (fst (fold_left (buildStep text) ms (chunks, lastIndex))))
      ++ sliceFrom text (snd (fold_left (buildStep text) ms (chunks, lastIndex)))
    = concat (map chunkContent chunks) ++ sliceFrom text lastIndex.
Proof.
  induction ms as [|m r IH]; intros chunks lastIndex H0 H; simpl; [reflexivity|].
  destruct H as (H1 & H2 & H3).
  unfold buildStep at 2 4. simpl fst. simpl snd.
  rewrite IH by (try lia; exact H3).
  rewrite map_app, concat_app. simpl. rewrite app_nil_r, <- !app_assoc.
  f_equal. rewrite (slice_sliceFrom text (start m) (end_ m)) by lia.
  apply slice_sliceFrom. lia.
Qed.

(** The chunks built from ascending spans are a partition of the text. *)
Lemma buildChunks_partition (text : str) (ms : list Span) :
  ascendingFrom 0 ms -> concat (map chunkContent (buildChunks text ms)) = text.
Proof.
  intros H. unfold buildChunks.
  rewrite map_app, concat_app. simpl. rewrite app_nil_r.
  rewrite buildStep_fold by (try lia; exact H).
  simpl. apply sliceFrom_0.
Qed.

(** * The span finder *)

Lemma findPositions_bounds (s v : str) (fuel : nat) :
  forall pos spans,
    0 <= pos -> findPositions fuel s v pos = Some spans ->
    Forall (fun m => 0 <= start m /\ end_ m = start m + len v /\ end_ m <= len s) spans.
Proof.
  induction fuel as [|fuel IH]; intros pos spans Hpos H; simpl in H; [discriminate|].
  destruct (Z.eqb_spec (indexOf s v pos) (-1)) as [E | E].
  - injection H as <-. constructor.
  - destruct (findPositions fuel s v (indexOf s v pos + len v)) as [rest|] eqn:Er;
      simpl in H; [|discriminate].
    injection H as <-.
    pose proof (len_nonneg s). pose proof (len_nonneg v).
    destruct (indexOf_bounds s v pos) as [Hb | [Hb1 Hb2]]; [contradiction|].
    constructor; [cbn [start end_]; lia|].
    apply (IH (indexOf s v pos + len v)); [lia | exact Er].
Qed.


(** With the empty value the loop never ends: the search succeeds at the
    same position on every turn. *)
Lemma findPositions_empty (s : str) (fuel : nat) :
  forall pos, findPositions fuel s [] pos = None.
Proof.
  induction fuel as [|fuel IH]; intros pos; simpl; [reflexivity|].
  rewrite indexOf_empty. pose proof (len_nonneg s).
  destruct (Z.eqb_spec (Z.min (Z.max pos 0) (len s)) (-1)); [lia|].
  rewrite IH. reflexivity.
Qed.



Lemma flatMapM_Forall {A B : Type} (f : A -> option (list B)) (P : B -> Prop) (l : list A) :
  (forall x ys, In x l -> f x = Some ys -> Forall P ys) ->
  forall zs, flatMapM f l = Some zs -> Forall P zs.
Proof.
  induction l as [|x r IH]; intros Hf zs H; simpl in H.
  - injection H as <-. constructor.
  - destruct (f x) as [ys|] eqn:Ex; simpl in H; [|discriminate].
    destruct (flatMapM f r) as [zs'|] eqn:Er; simpl in H; [|discriminate].
    injection H as <-. apply Forall_app. split.
    + apply (Hf x); [left; reflexivity | exact Ex].
    + apply IH; [|reflexivity]. intros y ys' Hy. apply Hf. right; exact Hy.
Qed.


(** * The highlighter *)

Section Highlighter.

Variable toLowerCase : str -> str.

Lemma findMatches_bounds (fuel : nat) (text : str) (tokens : list SearchToken)
    (found : list Span) :
  findMatches toLowerCase fuel text tokens = Some found ->
  Forall (fun m => 0 <= start m /\ start m <= end_ m) found.
Proof.
  apply flatMapM_Forall. intros token spans _ H.
  apply findPositions_bounds in H; [|lia].
  eapply Forall_impl; [|exact H]. cbv beta.
  intros m (H0 & H1 & _). pose proof (len_nonneg (value token)). lia.
Qed.


(** Whatever [highlightChunks] returns is a partition of the text. *)
Lemma highlightChunks_partition (fuel : nat) (text : str) (tokens : list SearchToken)
    (chunks : list Chunk) :
  highlightChunks toLowerCase fuel text tokens = Some chunks ->
  concat (map chunkContent chunks) = text.
Proof.
  unfold highlightChunks. destruct tokens as [|t ts].
  - intros H. injection H as <-. simpl. apply app_nil_r.
  - destruct (findMatches toLowerCase fuel text (t :: ts)) as [found|] eqn:E;
      simpl; [|discriminate].
    intros H. injection H as <-.
    apply buildChunks_partition.
    apply (disjoint_ascending _ (-1)); [lia|].
    apply mergeSpans_disjoint. eapply findMatches_bounds, E.
Qed.

(** Within the lowered text every span of a non-empty token is a
    non-empty range; it is a range of the text itself when lowering
    keeps the length. *)
Lemma findSpans_bounds_lowered (fuel : nat) (text : str) (token : SearchToken)
    (spans : list Span) :
  value token <> [] ->
  findSpans toLowerCase fuel text token = Some spans ->
  Forall (fun m => 0 <= start m < end_ m /\ end_ m <= len (toLowerCase text)) spans.
Proof.
  intros Hne H. apply findPositions_bounds in H; [|lia].
  eapply Forall_impl; [|exact H]. cbv beta. intros m (H0 & H1 & H2).
  assert (0 < len (value token)).
  { destruct (value token) as [|c v]; [contradiction|].
    rewrite len_cons. pose proof (len_nonneg v). lia. }
  lia.
Qed.


End Highlighter.

(** * Claims about the highlighter *)



(** C10.  When the token list is not empty and no token is found in the
    lowered text, [highlightText] returns the text as it is, with no
    marker. *)
Theorem highlight_no_occurrence :
  forall (toLowerCase : str -> str) (text : str) (tokens : list SearchToken) (fuel : nat),
    tokens <> [] ->
    Forall (fun token => includes (toLowerCase text) (value token) = false) tokens ->
    highlightText toLowerCase (S fuel) text tokens = Some text.
Proof.
  intros toLowerCase text tokens fuel Hne Hno.
  assert (Hfound : findMatches toLowerCase (S fuel) text tokens = Some []).
  { clear Hne. induction Hno as [|t ts Ht _ IH]; [reflexivity|].
    unfold findMatches in *. cbn [flatMapM]. rewrite IH.
    unfold findSpans. cbn [findPositions].
    unfold includes in Ht. apply negb_false_iff in Ht. rewrite Ht. reflexivity. }
  unfold highlightText, highlightChunks.
  destruct tokens as [|t ts]; [contradiction|].
  rewrite Hfound. cbn [bind]. unfold mergeSpans, buildChunks. cbn.
  rewrite sliceFrom_0, app_nil_r. reflexivity.
Qed.

Lemma highlight_no_occurrence_witness :
  highlightText String_toLowerCase 1 (u "Zeit im Bild")
    [ {| value := u "wetter" |}; {| value := u "sport" |} ] = Some (u "Zeit im Bild").
Proof.
  apply (highlight_no_occurrence String_toLowerCase (u "Zeit im Bild")
           [ {| value := u "wetter" |}; {| value := u "sport" |} ] 0).
  - discriminate.
  - repeat constructor.
Defined.

(** C6, at a text whose lower case is longer than the text.  The text is
    U+0130 followed by [x]; lowering makes it three code units long, the
    token [x] is found at position 2 of the lowered text, and the span
    [2, 3) ends after the end of the two code units of the text. *)
Theorem span_exceeds_text :
  findSpans String_toLowerCase 4 [0x130%N; 0x78%N] {| value := u "x" |}
  = Some [ {| start := 2; end_ := 3 |} ] /\
  len [0x130%N; 0x78%N] = 2 /\
  String_toLowerCase [0x130%N; 0x78%N] = [0x69%N; 0x307%N; 0x78%N].
Proof. repeat split. Qed.

(** C7, the empty token.  The search for the empty value succeeds on every
    turn of the loop without moving on, so no amount of fuel lets the span
    finder return, and [highlightText] does not return either. *)
Theorem span_finder_empty_token_loops :
  forall (toLowerCase : str -> str) (text : str) (fuel : nat),
    findSpans toLowerCase fuel text {| value := [] |} = None /\
    highlightText toLowerCase fuel text [ {| value := [] |} ] = None.
Proof.
  intros toLowerCase text fuel.
  assert (H : findSpans toLowerCase fuel text {| value := [] |} = None)
    by apply findPositions_empty.
  split; [exact H|].
  unfold highlightText, highlightChunks, findMatches. cbn [flatMapM].
  rewrite H. reflexivity.
Qed.

(** * Merge correctness *)

Lemma covers_refl (a : Span) : covers a a.
Proof. unfold covers. lia. Qed.

(** Every input span lies inside one span of the sweep. *)
Lemma sweep_covers (rest : list Span) :
  forall cur a,
    Forall (leStart cur) rest -> StronglySorted leStart rest ->
    covers cur a \/ In a rest ->
    exists m, In m (sweep cur rest) /\ covers m a.
Proof.
  unfold leStart, covers.
  induction rest as [|m r IH]; intros cur a Hle Hs Ha; simpl.
  - destruct Ha as [Ha | []]. exists cur. auto.
  - inversion Hle as [|? ? Hcm Hcr]; subst.
    inversion Hs as [|? ? Hsr Hmr]; subst.
    destruct (Z.leb_spec (start m) (end_ cur)).
    + apply IH; cbn [start end_]; auto.
      destruct Ha as [Ha | [-> | Ha]]; [left; lia | left; lia | right; exact Ha].
    + destruct Ha as [Ha | [-> | Ha]].
      * exists cur. split; [left; reflexivity | exact Ha].
      * destruct (IH a a Hmr Hsr) as (m' & Hin & Hc); [left; lia|].
        exists m'. split; [right; exact Hin | exact Hc].
      * destruct (IH m a Hmr Hsr) as (m' & Hin & Hc); [right; exact Ha|].
        exists m'. split; [right; exact Hin | exact Hc].
Qed.

Lemma mergeSpans_covers (ms : list Span) (a : Span) :
  In a ms -> exists m, In m (mergeSpans ms) /\ covers m a.
Proof.
  intros Ha. unfold mergeSpans.
  pose proof (sort_perm start ms) as Hp.
  pose proof (sort_sorted start ms) as Hs.
  change (fun a b : Span => start a - start b) with byStart in Hp, Hs.
  apply (Permutation_in _ Hp) in Ha.
  destruct (sort byStart ms) as [|c r]; [destruct Ha|].
  rewrite mergeMatches_sweep.
  inversion Hs as [|? ? Hsr Hcr]; subst.
  apply sweep_covers; auto.
  destruct Ha as [<- | Ha]; [left; apply covers_refl | right; exact Ha].
Qed.

Lemma disjointFrom_In (l : list Span) :
  forall e m, disjointFrom e l -> In m l -> e < start m /\ start m <= end_ m.
Proof.
  induction l as [|x r IH]; intros e m H Hin; [destruct Hin|].
  destruct H as (H1 & H2 & H3). destruct Hin as [<- | Hin]; [auto|].
  destruct (IH _ _ H3 Hin). lia.
Qed.


Lemma sweep_cong (a : Span) (l l' : list Span) :
  (forall c, sweep c l = sweep c l') ->
  forall cur, sweep cur (a :: l) = sweep cur (a :: l').
Proof.
  intros H cur. simpl. rewrite !H. reflexivity.
Qed.

(** Two neighbours with the same start may change places. *)
Lemma sweep_swap (a b : Span) (r : list Span) :
  start a = start b -> wfSpan a -> wfSpan b ->
  forall cur, sweep cur (a :: b :: r) = sweep cur (b :: a :: r).
Proof.
  unfold wfSpan. intros Hab Ha Hb cur. simpl.
  repeat match goal with
         | |- context [?x <=? ?y] => destruct (Z.leb_spec x y); cbn [start end_] in *
         end; try lia.
  - rewrite <- !Z.max_assoc, (Z.max_comm (end_ a)). reflexivity.
  - rewrite Hab, (Z.max_comm (end_ a)). reflexivity.
Qed.

Lemma sweep_move_front (x : Span) (r p : list Span) :
  wfSpan x -> Forall (fun a => start a = start x /\ wfSpan a) p ->
  forall cur, sweep cur (p ++ x :: r) = sweep cur (x :: p ++ r).
Proof.
  intros Hx Hp. induction Hp as [|a p' [Ha1 Ha2] _ IH]; intros cur; [reflexivity|].
  cbn [app]. rewrite (sweep_cong a _ _ IH).
  apply sweep_swap; assumption.
Qed.

Lemma sorted_before (p q : list Span) (x : Span) :
  StronglySorted leStart (p ++ x :: q) -> Forall (fun a => leStart a x) p.
Proof.
  induction p as [|a p IH]; intros H; [constructor|].
  inversion H as [|? ? Hs Hf]; subst. constructor; [|apply IH, Hs].
  rewrite Forall_forall in Hf. apply Hf, in_elt.
Qed.

Lemma sorted_remove (p q : list Span) (x : Span) :
  StronglySorted leStart (p ++ x :: q) -> StronglySorted leStart (p ++ q).
Proof.
  induction p as [|a p IH]; intros H; cbn [app] in *.
  - inversion H; assumption.
  - inversion H as [|? ? Hs Hf]; subst. constructor; [apply IH, Hs|].
    rewrite Forall_forall in *. intros y Hy. apply Hf.
    apply in_app_or in Hy as [Hy | Hy]; apply in_or_app; [left | right; right]; exact Hy.
Qed.

(** The sweep of a list sorted by start depends on the spans in the list
    only, not on the order among spans that start together. *)
Lemma sweep_perm (n : nat) :
  forall t t',
    (length t <= n)%nat -> Permutation t t' ->
    StronglySorted leStart t -> StronglySorted leStart t' -> Forall wfSpan t ->
    forall cur, sweep cur t = sweep cur t'.
Proof.
  induction n as [|n IH]; intros t t' Hn Hp Hs Hs' Hwf cur.
  - destruct t; [|simpl in Hn; lia].
    apply Permutation_nil in Hp. subst. reflexivity.
  - destruct t' as [|x r'].
    + apply Permutation_sym, Permutation_nil in Hp. subst. reflexivity.
    + assert (Hx : In x t) by (apply (Permutation_in _ (Permutation_sym Hp)); left; reflexivity).
      destruct (in_split _ _ Hx) as (p & q & ->).
      assert (Hpq : Permutation (p ++ q) r').
      { apply Permutation_sym. apply (Permutation_cons_app_inv p q (a := x)). apply Permutation_sym, Hp. }
      rewrite Forall_app in Hwf. destruct Hwf as [Hwp Hwq].
      inversion Hwq as [|? ? Hwx Hwq']; subst.
      inversion Hs' as [|? ? Hsr Hxr]; subst.
      rewrite sweep_move_front; [|exact Hwx|].
      * apply sweep_cong. intros c. apply IH.
        -- rewrite length_app in *. simpl in Hn. lia.
        -- exact Hpq.
        -- eapply sorted_remove, Hs.
        -- exact Hsr.
        -- apply Forall_app. split; assumption.
      * pose proof (sorted_before _ _ _ Hs) as Hb.
        rewrite Forall_forall in *. intros a Ha. split; [|apply Hwp, Ha].
        specialize (Hb a Ha). unfold leStart in *.
        assert (In a r') by (apply (Permutation_in _ Hpq), in_or_app; left; exact Ha).
        specialize (Hxr a H). lia.
Qed.

(** The merged spans do not depend on the order of the input. *)
Lemma mergeSpans_perm (l l' : list Span) :
  Forall wfSpan l -> Permutation l l' -> mergeSpans l = mergeSpans l'.
Proof.
  intros Hwf Hp. unfold mergeSpans.
  pose proof (sort_perm start l) as Hl.
  pose proof (sort_perm start l') as Hl'.
  pose proof (sort_sorted start l) as Hs.
  pose proof (sort_sorted start l') as Hs'.
  change (fun a b : Span => start a - start b) with byStart in *.
  change (fun a b : Span => start a <= start b) with leStart in *.
  assert (Hpp : Permutation (sort byStart l) (sort byStart l')).
  { rewrite <- Hl, <- Hl'. exact Hp. }
  apply (Permutation_Forall Hl) in Hwf.
  destruct (sort byStart l) as [|c t].
  - apply Permutation_nil in Hpp. rewrite Hpp. reflexivity.
  - destruct (sort byStart l') as [|c' t'].
    + apply Permutation_sym, Permutation_nil in Hpp. discriminate.
    + rewrite !mergeMatches_sweep.
      assert (Hcc : start c = start c').
      { inversion Hs as [|? ? _ Hc]; inversion Hs' as [|? ? _ Hc']; subst.
        rewrite Forall_forall in Hc, Hc'. unfold leStart in *.
        assert (H1 : In c' (c :: t)) by (apply (Permutation_in _ (Permutation_sym Hpp)); left; reflexivity).
        assert (H2 : In c (c' :: t')) by (apply (Permutation_in _ Hpp); left; reflexivity).
        destruct H1 as [<- | H1]; [reflexivity|].
        destruct H2 as [<- | H2]; [reflexivity|].
        specialize (Hc _ H1). specialize (Hc' _ H2). lia. }
      pose (d := {| start := start c - 1; end_ := start c - 1 |}).
      pose proof (sweep_perm (length (c :: t)) (c :: t) (c' :: t') (le_n _) Hpp Hs Hs' Hwf d) as H.
      cbn [sweep] in H. cbn [start end_ d] in H.
      destruct (Z.leb_spec (start c) (start c - 1)); [lia|].
      destruct (Z.leb_spec (start c') (start c - 1)); [lia|].
      injection H as H. exact H.
Qed.






(** * The cue parser *)

Module ParserFacts.

Import TVSegment.

Lemma filterNonNull_dense (blocks : list str) :
  forall k,
    Forall (fun block => 3 <= len (split block nl)) blocks ->
    denseFrom k (filterNonNull (mapi parseBlock blocks k)).
Proof.
  induction blocks as [|b r IH]; intros k H; [exact I|].
  inversion H as [|? ? Hb Hr]; subst.
  cbn [mapi filterNonNull flat_map]. unfold parseBlock at 1.
  destruct (Z.ltb_spec (len (split b nl)) 3); [lia|].
  cbn [app denseFrom index]. split; [reflexivity|].
  apply IH, Hr.
Qed.

(** When every block after the header has three lines or more, the
    indices of the cues are their positions. *)
Lemma parseSubtitles_dense (seg : TVSegment) (s : str) :
  subtitles seg = Some s ->
  Forall (fun block => 3 <= len (split block nl)) (sliceFrom (split s (nl ++ nl)) 1) ->
  dense (parseSubtitles seg).
Proof.
  intros Hs H. unfold parseSubtitles. rewrite Hs.
  destruct s; [exact I|]. apply filterNonNull_dense, H.
Qed.

End ParserFacts.

(** C4, at a transcript with a dropped block.  [index] is the position of
    the block in the list that [map] walks, before [filter] drops the
    blocks that are not cues: the two cues kept from [rawWithNote]
    have the indices 1 and 2, not 0 and 1.  [createChunk] compares this index with positions in
    the filtered list. *)
Theorem parse_index_after_drop :
  TVSegment.parseSubtitles
    {| TVSegment.subtitles := Some rawWithNote;
       TVSegment.searchTokens := [];
       TVSegment.showFullTranscript := false |}
  = [ {| TVSegment.index := 1;
         TVSegment.time := u "00:00:01.000 --> 00:00:04.000";
         TVSegment.text := u "Guten Abend" |};
      {| TVSegment.index := 2;
         TVSegment.time := u "00:00:04.000 --> 00:00:08.000";
         TVSegment.text := u "Die Wahl" |} ].
Proof. reflexivity. Qed.

(** * The cue grouper *)

Module GrouperFacts.

Import TVSegment.

Lemma setHas_In (s : list Z) (x : Z) : setHas s x = true <-> In x s.
Proof.
  unfold setHas. rewrite existsb_exists. split.
  - intros (y & Hy & E). apply Z.eqb_eq in E. subst. exact Hy.
  - intros H. exists x. split; [exact H | apply Z.eqb_refl].
Qed.

Lemma setAdd_In (s : list Z) (x y : Z) : In x (setAdd s y) <-> In x s \/ x = y.
Proof.
  unfold setAdd. destruct (setHas s y) eqn:E.
  - apply setHas_In in E. split; [auto|]. intros [H | ->]; assumption.
  - rewrite in_app_iff. simpl. intuition.
Qed.

Lemma setOf_In (g : list Z) (x : Z) : In x (setOf g) <-> In x g.
Proof.
  unfold setOf.
  assert (H : forall acc, In x (fold_left setAdd g acc) <-> In x acc \/ In x g).
  { induction g as [|y r IH]; intros acc; simpl; [tauto|].
    rewrite IH, setAdd_In. intuition. }
  rewrite H. simpl. tauto.
Qed.

Lemma get_Some {A : Type} (l : list A) (i : Z) (x : A) :
  get l i = Some x <-> 0 <= i /\ nth_error l (Z.to_nat i) = Some x.
Proof.
  unfold get. destruct (Z.ltb_spec i 0); split.
  - discriminate.
  - intros [? _]. lia.
  - intros H'. split; [lia | exact H'].
  - intros [_ H']. exact H'.
Qed.

Lemma get_bounds {A : Type} (l : list A) (i : Z) (x : A) :
  get l i = Some x -> 0 <= i < len l.
Proof.
  intros H. apply get_Some in H as [H0 H].
  assert (Hn : nth_error l (Z.to_nat i) <> None) by congruence.
  apply nth_error_Some in Hn. unfold len. lia.
Qed.

Lemma get_total {A : Type} (l : list A) (i : Z) :
  0 <= i < len l -> exists x, get l i = Some x.
Proof.
  intros H. unfold get. destruct (Z.ltb_spec i 0); [lia|].
  destruct (nth_error l (Z.to_nat i)) eqn:E; [eexists; reflexivity|].
  apply nth_error_None in E. unfold len in H. lia.
Qed.

Lemma get_In {A : Type} (l : list A) (i : Z) (x : A) : get l i = Some x -> In x l.
Proof.
  intros H. apply get_Some in H as [_ H]. eapply nth_error_In, H.
Qed.

Lemma get_cons {A : Type} (x : A) (l : list A) (i : Z) :
  0 < i -> get (x :: l) i = get l (i - 1).
Proof.
  intros H. unfold get.
  destruct (Z.ltb_spec i 0); [lia|]. destruct (Z.ltb_spec (i - 1) 0); [lia|].
  replace (Z.to_nat i) with (S (Z.to_nat (i - 1))) by lia. reflexivity.
Qed.

(** The cues of a slice are the cues at the positions of its range. *)
Lemma slice_In {A : Type} (l : list A) (a b : Z) (x : A) :
  0 <= a -> 0 <= b ->
  (In x (slice l a b) <-> exists p, a <= p < b /\ get l p = Some x).
Proof.
  intros Ha Hb. rewrite slice_firstn_skipn by assumption.
  pose proof (len_nonneg l) as Hl.
  set (a' := Z.to_nat (Z.min a (len l))).
  set (n := (Z.to_nat (Z.min b (len l)) - a')%nat).
  rewrite In_iff_nth_error. split.
  - intros (i & Hi). rewrite nth_error_firstn, nth_error_skipn in Hi.
    destruct (Nat.ltb_spec i n); [|discriminate].
    assert (Hn : nth_error l (a' + i) <> None) by congruence.
    apply nth_error_Some in Hn.
    exists (Z.of_nat (a' + i)). split.
    + unfold len in *. lia.
    + apply get_Some. split; [lia|]. rewrite Nat2Z.id. exact Hi.
  - intros (p & Hp & Hg). pose proof (get_bounds _ _ _ Hg) as Hpb.
    apply get_Some in Hg as [_ Hg].
    exists (Z.to_nat p - a')%nat. rewrite nth_error_firstn, nth_error_skipn.
    destruct (Nat.ltb_spec (Z.to_nat p - a') n) as [_ | Hn]; [|unfold len in *; lia].
    replace (a' + (Z.to_nat p - a'))%nat with (Z.to_nat p) by (unfold len in *; lia).
    exact Hg.
Qed.

Lemma denseFrom_get (subs : list ParsedSubtitle) :
  forall k i sub, denseFrom k subs -> get subs i = Some sub -> index sub = k + i.
Proof.
  induction subs as [|s r IH]; intros k i sub Hd Hg.
  - apply get_bounds in Hg. unfold len in Hg; simpl in Hg; lia.
  - destruct Hd as [Hs Hr]. pose proof (get_bounds _ _ _ Hg) as Hb.
    destruct (Z.eq_dec i 0) as [-> | Hi].
    + unfold get in Hg. simpl in Hg. injection Hg as <-. lia.
    + rewrite get_cons in Hg by lia.
      rewrite (IH (k + 1) (i - 1) sub Hr Hg). lia.
Qed.

Lemma dense_get (subs : list ParsedSubtitle) (i : Z) (sub : ParsedSubtitle) :
  dense subs -> get subs i = Some sub -> index sub = i.
Proof.
  intros Hd Hg. rewrite (denseFrom_get subs 0 i sub Hd Hg). lia.
Qed.

Section Matching.

Variable toLowerCase : str -> str.
Variable tokens : list SearchToken.

(** The set filled by [forEach] holds the matching positions in
    ascending order. *)
Lemma collectMatching_matchingFrom (subs : list ParsedSubtitle) :
  forall k acc,
    Forall (fun x => x < k) acc ->
    collectMatching toLowerCase tokens subs k acc
    = acc ++ matchingFrom toLowerCase tokens k subs.
Proof.
  induction subs as [|s r IH]; intros k acc Hacc; simpl.
  - symmetry. apply app_nil_r.
  - destruct (tokenMatches toLowerCase tokens s).
    + assert (E : setAdd acc k = acc ++ [k]).
      { unfold setAdd. destruct (setHas acc k) eqn:Eh; [|reflexivity].
        apply setHas_In in Eh. rewrite Forall_forall in Hacc.
        specialize (Hacc k Eh). lia. }
      rewrite E, IH, <- app_assoc; [reflexivity|].
      apply Forall_app. split.
      * eapply Forall_impl; [|exact Hacc]. cbv beta. intros; lia.
      * constructor; [lia | constructor].
    + apply IH. eapply Forall_impl; [|exact Hacc]. cbv beta. intros; lia.
Qed.

Lemma matchingFrom_bounds (subs : list ParsedSubtitle) :
  forall k, Forall (fun p => k <= p < k + len subs)
                   (matchingFrom toLowerCase tokens k subs).
Proof.
  induction subs as [|s r IH]; intros k; simpl; [constructor|].
  assert (H : Forall (fun p => k <= p < k + len (s :: r))
                     (matchingFrom toLowerCase tokens (k + 1) r)).
  { eapply Forall_impl; [|apply IH]. intros p Hp. rewrite len_cons. cbv beta in Hp. lia. }
  destruct (tokenMatches toLowerCase tokens s); [|exact H].
  constructor; [|exact H]. rewrite len_cons. pose proof (len_nonneg r). lia.
Qed.

Lemma matchingFrom_sorted (subs : list ParsedSubtitle) :
  forall k, StronglySorted Z.le (matchingFrom toLowerCase tokens k subs).
Proof.
  induction subs as [|s r IH]; intros k; simpl; [constructor|].
  destruct (tokenMatches toLowerCase tokens s); [|apply IH].
  constructor; [apply IH|].
  eapply Forall_impl; [|apply matchingFrom_bounds]. intros p Hp. cbv beta in Hp. lia.
Qed.

Lemma matchingFrom_increasing (subs : list ParsedSubtitle) :
  forall k, StronglySorted Z.lt (matchingFrom toLowerCase tokens k subs).
Proof.
  induction subs as [|s r IH]; intros k; simpl; [constructor|].
  destruct (tokenMatches toLowerCase tokens s); [|apply IH].
  constructor; [apply IH|].
  eapply Forall_impl; [|apply matchingFrom_bounds]. intros p Hp. cbv beta in Hp. lia.
Qed.

(** A position is in the list when, and only when, its cue contains
    a token. *)
Lemma matchingFrom_In (subs : list ParsedSubtitle) :
  forall k p,
    In p (matchingFrom toLowerCase tokens k subs) <->
    exists sub, get subs (p - k) = Some sub /\
                tokenMatches toLowerCase tokens sub = true.
Proof.
  induction subs as [|s r IH]; intros k p; simpl.
  - split; [intros [] | intros (sub & H & _)].
    apply get_bounds in H. unfold len in H; simpl in H; lia.
  - assert (Hr : In p (matchingFrom toLowerCase tokens (k + 1) r) <->
                 exists sub, 0 < p - k /\ get (s :: r) (p - k) = Some sub /\
                             tokenMatches toLowerCase tokens sub = true).
    { rewrite IH. split; intros (sub & H).
      - destruct H as [Hg Ht]. pose proof (get_bounds _ _ _ Hg).
        exists sub. split; [lia|]. rewrite get_cons by lia.
        replace (p - k - 1) with (p - (k + 1)) by lia. auto.
      - destruct H as (Hp & Hg & Ht). rewrite get_cons in Hg by lia.
        replace (p - k - 1) with (p - (k + 1)) in Hg by lia. eauto. }
    destruct (tokenMatches toLowerCase tokens s) eqn:Es; simpl; rewrite ?Hr; split.
    + intros [<- | (sub & _ & H)]; [|eauto].
      exists s. rewrite Z.sub_diag. auto.
    + intros (sub & Hg & Ht). destruct (Z.eq_dec p k) as [-> | Hpk]; [left; reflexivity|].
      right. exists sub. pose proof (get_bounds _ _ _ Hg). repeat split; auto; lia.
    + intros (sub & _ & H). eauto.
    + intros (sub & Hg & Ht). exists sub. pose proof (get_bounds _ _ _ Hg).
      destruct (Z.eq_dec p k) as [-> | Hpk].
      * rewrite Z.sub_diag in Hg. unfold get in Hg. simpl in Hg.
        injection Hg as <-. congruence.
      * repeat split; auto; lia.
Qed.

End Matching.

Lemma mapM_total {A B : Type} (f : A -> option B) (l : list A) :
  (forall x, In x l -> exists y, f x = Some y) -> exists r, mapM f l = Some r.
Proof.
  induction l as [|x t IH]; intros H; cbn [mapM]; [eexists; reflexivity|].
  destruct (H x (or_introl eq_refl)) as [y ->].
  destruct IH as [r ->]; [intros z Hz; apply H; right; exact Hz|].
  eexists; reflexivity.
Qed.

Lemma mapM_Forall2 {A B : Type} (f : A -> option B) (l : list A) :
  forall r, mapM f l = Some r -> Forall2 (fun x y => f x = Some y) l r.
Proof.
  induction l as [|x t IH]; intros r H; cbn [mapM] in H.
  - injection H as <-. constructor.
  - destruct (f x) as [y|] eqn:Ex; cbn [bind] in H; [|discriminate].
    destruct (mapM f t) as [ys|]; cbn [bind] in H; [|discriminate].
    injection H as <-. constructor; [exact Ex | apply IH; reflexivity].
Qed.

Lemma get_hd {A : Type} (l : list A) : get l 0 = hd_error l.
Proof. destruct l; reflexivity. Qed.

Lemma lastOf_In {A : Type} (l : list A) (x : A) : lastOf l = Some x -> In x l.
Proof.
  destruct l as [|a t]; [discriminate|]. intros H.
  destruct (exists_last (l := a :: t) ltac:(discriminate)) as (t' & z & E).
  revert H. rewrite E, lastOf_snoc. intros H. injection H as <-.
  apply in_or_app. right. left. reflexivity.
Qed.

Lemma get_last {A : Type} (l : list A) (x : A) :
  lastOf l = Some x -> get l (len l - 1) = Some x.
Proof.
  destruct l as [|a t]; [discriminate|]. intros H.
  destruct (exists_last (l := a :: t) ltac:(discriminate)) as (t' & z & E).
  revert H. rewrite E, lastOf_snoc. intros H. injection H as <-.
  apply get_Some. rewrite len_app. pose proof (len_nonneg t').
  split; [unfold len in *; simpl; lia|].
  replace (Z.to_nat (len t' + len [z] - 1)) with (length t' + 0)%nat
    by (unfold len; simpl; lia).
  rewrite nth_error_app2, Nat.add_comm, Nat.add_sub by lia. reflexivity.
Qed.

(** [createChunk] on a non-empty group of positions of the transcript. *)
Lemma createChunk_window (subs : list ParsedSubtitle) (g : list Z) :
  g <> [] -> Forall (fun p => 0 <= p < len subs) g ->
  exists w, createChunk subs g contextSize = Some w /\ windowOf subs g w.
Proof.
  intros Hne Hg.
  destruct (hd_error g) as [firstMatch|] eqn:Eh; [|destruct g; [contradiction | discriminate]].
  destruct (lastOf g) as [lastMatch|] eqn:El; [|destruct g; [contradiction | discriminate]].
  destruct (mapM_total (get subs) g) as [ms Ems].
  { rewrite Forall_forall in Hg. intros p Hp. apply get_total, Hg, Hp. }
  unfold createChunk.
  rewrite get_hd, Eh, (get_last g lastMatch El), Ems. cbn [bind].
  eexists. split; [reflexivity|].
  exists firstMatch, lastMatch. cbn [matches context].
  assert (Hlast : 0 <= lastMatch < len subs).
  { rewrite Forall_forall in Hg. apply Hg, lastOf_In, El. }
  unfold contextSize in *.
  split; [exact Eh|]. split; [exact El|]. split; [exact Ems|].
  split; [|intros Hd p sub Hp Hget; split].
  - intros sub Hs. apply filter_In in Hs as [Hs Hn].
    apply slice_In in Hs; [|lia|lia].
    destruct Hs as (p & Hp & Hget). exists p. repeat split; try lia; [exact Hget|].
    apply negb_true_iff in Hn. intros Hin.
    apply setOf_In, setHas_In in Hin. congruence.
  - intros Hs. apply filter_In in Hs as [_ Hn].
    apply negb_true_iff in Hn. rewrite (dense_get subs p sub Hd Hget) in Hn.
    intros Hin. apply setOf_In, setHas_In in Hin. congruence.
  - intros Hn. apply filter_In. split.
    + apply slice_In; [lia | lia |]. exists p. split; [lia | exact Hget].
    + apply negb_true_iff. rewrite (dense_get subs p sub Hd Hget).
      destruct (setHas (setOf g) p) eqn:E; [|reflexivity].
      apply setHas_In in E. apply (proj1 (setOf_In g p)) in E. destruct (Hn E).
Qed.

(** The loop and the last push give the windows of the groups. *)
Lemma groupLoop_groups (subs : list ParsedSubtitle) (idxs : list Z) :
  forall st l,
    currentChunkStart st <> -1 ->
    lastOf (currentChunkMatches st) = Some l ->
    Forall (fun i => i <> -1) idxs ->
    (st' <- groupLoop subs idxs st ;;
     if 0 <? len (currentChunkMatches st') then
       c <- createChunk subs (currentChunkMatches st') contextSize ;;
       Some (chunks st' ++ [c])
     else Some (chunks st'))
    = (cs <- mapM (fun g => createChunk subs g contextSize)
                  (groupsFrom (currentChunkMatches st) l idxs) ;;
       Some (chunks st ++ cs)).
Proof.
  induction idxs as [|idx r IH]; intros st l Hstart Hlast Hidx.
  - cbn [groupLoop bind groupsFrom mapM].
    assert (Hlen : (0 <? len (currentChunkMatches st)) = true).
    { apply Z.ltb_lt. destruct (currentChunkMatches st); [discriminate|].
      rewrite len_cons. pose proof (len_nonneg l0). lia. }
    rewrite Hlen.
    destruct (createChunk subs (currentChunkMatches st) contextSize); reflexivity.
  - inversion Hidx as [|? ? Hi Hr]; subst.
    cbn [groupLoop groupsFrom]. unfold groupStep.
    destruct (Z.eqb_spec (currentChunkStart st) (-1)); [contradiction|].
    rewrite Hlast. cbn [bind].
    destruct (idx <=? l + contextSize * 2).
    + cbn [bind].
      apply (IH {| currentChunkStart := currentChunkStart st;
                   currentChunkMatches := currentChunkMatches st ++ [idx];
                   chunks := chunks st |} idx);
        [assumption | apply lastOf_snoc | assumption].
    + cbn [mapM].
      destruct (createChunk subs (currentChunkMatches st) contextSize) as [c|];
        cbn [bind]; [|reflexivity].
      etransitivity.
      * apply (IH {| currentChunkStart := idx;
                     currentChunkMatches := [idx];
                     chunks := chunks st ++ [c] |} idx);
          [assumption | reflexivity | assumption].
      * cbn [currentChunkMatches chunks].
        destruct (mapM _ (groupsFrom [idx] idx r)); cbn [bind]; [|reflexivity].
        rewrite <- app_assoc. reflexivity.
Qed.

Lemma groupChunks_groups (subs : list ParsedSubtitle) (idxs : list Z) :
  Forall (fun i => i <> -1) idxs ->
  groupChunks subs idxs = mapM (fun g => createChunk subs g contextSize) (groupsOf idxs).
Proof.
  intros H. destruct idxs as [|idx r]; [reflexivity|].
  inversion H as [|? ? Hi Hr]; subst.
  unfold groupChunks, groupsOf. cbn [groupLoop]. unfold groupStep at 1.
  cbn [currentChunkStart Z.eqb bind chunks].
  etransitivity.
  - apply (groupLoop_groups subs r
             {| currentChunkStart := idx; currentChunkMatches := [idx]; chunks := [] |} idx);
      [assumption | reflexivity | assumption].
  - cbn [currentChunkMatches chunks].
    destruct (mapM _ (groupsFrom [idx] idx r)); reflexivity.
Qed.

Lemma groupsFrom_concat (idxs : list Z) :
  forall cur l, concat (groupsFrom cur l idxs) = cur ++ idxs.
Proof.
  induction idxs as [|idx r IH]; intros cur l; cbn [groupsFrom].
  - simpl. reflexivity.
  - destruct (idx <=? l + contextSize * 2).
    + rewrite IH, <- app_assoc. reflexivity.
    + cbn [concat]. rewrite IH. reflexivity.
Qed.

Lemma groupsFrom_hd (idxs : list Z) :
  forall cur l,
    cur <> [] ->
    exists g rest, groupsFrom cur l idxs = g :: rest /\ hd_error g = hd_error cur.
Proof.
  induction idxs as [|idx r IH]; intros cur l Hne; cbn [groupsFrom].
  - eauto.
  - destruct (idx <=? l + contextSize * 2); [|eauto].
    destruct (IH (cur ++ [idx]) idx) as (g & rest & E & Hh).
    + destruct cur; discriminate.
    + exists g, rest. split; [exact E|]. rewrite Hh. destruct cur; [contradiction | reflexivity].
Qed.

Lemma last_cons {A : Type} (t : list A) :
  forall y x, last (y :: t) x = last t y.
Proof.
  induction t as [|z t IH]; intros y x; [reflexivity|].
  change (last (y :: z :: t) x) with (last (z :: t) x).
  rewrite (IH z x), (IH z y). reflexivity.
Qed.

Lemma chained_snoc (cur : list Z) (l idx : Z) :
  chained cur -> lastOf cur = Some l -> idx <= l + contextSize * 2 ->
  chained (cur ++ [idx]).
Proof.
  induction cur as [|x t IH]; intros Hc Hl Hi; [discriminate|].
  destruct Hc as [Hx Ht]. destruct t as [|y t'].
  - injection Hl as <-. cbn. auto.
  - cbn [app chained] in *. split; [exact Hx|].
    apply IH; [exact Ht | | exact Hi].
    unfold lastOf in *. rewrite last_cons in Hl. exact Hl.
Qed.

(** The groups are the single-linkage clusters of the indices. *)
Lemma groupsFrom_linked (idxs : list Z) :
  forall cur l,
    chained cur -> lastOf cur = Some l -> linked (groupsFrom cur l idxs).
Proof.
  induction idxs as [|idx r IH]; intros cur l Hc Hl; cbn [groupsFrom].
  - cbn. repeat split; auto. intros ->. discriminate.
  - destruct (Z.leb_spec idx (l + contextSize * 2)).
    + apply IH; [eapply chained_snoc; eauto | apply lastOf_snoc].
    + cbn [linked]. split; [intros ->; discriminate|]. split; [exact Hc|].
      split; [|apply IH; [cbn; auto | reflexivity]].
      destruct (groupsFrom_hd r [idx] idx ltac:(discriminate)) as (g & rest & -> & Hh).
      intros l0 f Hl0 Hf. rewrite Hh in Hf. cbn in Hf. congruence.
Qed.

End GrouperFacts.

(** * Snippet windows *)

Module WindowFacts.

Import TVSegment GrouperFacts.

Lemma Forall2_impl_In {A B : Type} (P Q : A -> B -> Prop) (l : list A) (r : list B) :
  Forall2 P l r -> (forall x y, In x l -> P x y -> Q x y) -> Forall2 Q l r.
Proof.
  induction 1 as [|x y l r Hxy _ IH]; intros H; constructor.
  - apply H; [left; reflexivity | exact Hxy].
  - apply IH. intros a b Ha. apply H. right; exact Ha.
Qed.

Lemma linked_nonempty (gs : list (list Z)) (g : list Z) :
  linked gs -> In g gs -> g <> [].
Proof.
  induction gs as [|g0 r IH]; intros Hl Hin; [destruct Hin|].
  destruct Hl as (Hne & _ & _ & Hr). destruct Hin as [<- | Hin]; auto.
Qed.

Lemma groupsOf_concat (idxs : list Z) : concat (groupsOf idxs) = idxs.
Proof.
  destruct idxs as [|idx r]; [reflexivity|]. apply (groupsFrom_concat r [idx] idx).
Qed.

Lemma groupsOf_linked (idxs : list Z) : linked (groupsOf idxs).
Proof.
  destruct idxs as [|idx r]; [exact I|].
  apply groupsFrom_linked; [cbn; auto | reflexivity].
Qed.

Lemma mapM_get_In {A : Type} (l : list A) (g : list Z) :
  forall r x, mapM (get l) g = Some r -> In x r -> exists p, In p g /\ get l p = Some x.
Proof.
  intros r x H Hin. apply mapM_Forall2 in H.
  induction H as [|p y g' r' Hp _ IH]; [destruct Hin|].
  destruct Hin as [<- | Hin].
  - exists p. split; [left; reflexivity | exact Hp].
  - destruct (IH Hin) as (q & Hq & Hg). exists q. split; [right; exact Hq | exact Hg].
Qed.

Section Snippets.

Variable toLowerCase : str -> str.

(** In snippet mode with a token, the method returns the windows of
    the groups of the matching positions. *)
Lemma snippet_windows (subs : list ParsedSubtitle) (tokens : list SearchToken) :
  tokens <> [] ->
  exists windows,
    matchingSubtitlesOf toLowerCase subs false tokens = Some windows /\
    Forall2 (windowOf subs) (groupsOf (matchingFrom toLowerCase tokens 0 subs)) windows.
Proof.
  intros Hne. unfold matchingSubtitlesOf.
  destruct tokens as [|t ts]; [contradiction|].
  rewrite (collectMatching_matchingFrom toLowerCase (t :: ts) subs 0 []) by constructor.
  cbn [app]. set (M := matchingFrom toLowerCase (t :: ts) 0 subs).
  pose proof (matchingFrom_bounds toLowerCase (t :: ts) subs 0) as Hb.
  pose proof (matchingFrom_sorted toLowerCase (t :: ts) subs 0) as Hs.
  fold M in Hb, Hs.
  assert (Hsort : sort Z.sub M = M) by (apply (sort_of_sorted (fun x : Z => x)), Hs).
  assert (Hgroups : groupChunks subs M
                    = mapM (fun g => createChunk subs g contextSize) (groupsOf M)).
  { apply groupChunks_groups. eapply Forall_impl; [|exact Hb]. cbv beta. intros; lia. }
  assert (Hw : forall g, In g (groupsOf M) ->
                         exists w, createChunk subs g contextSize = Some w /\ windowOf subs g w).
  { intros g Hg. apply createChunk_window.
    - eapply linked_nonempty; [apply groupsOf_linked | exact Hg].
    - rewrite Forall_forall in *. intros p Hp.
      assert (HpM : In p M).
      { rewrite <- (groupsOf_concat M). apply in_concat. eauto. }
      specialize (Hb p HpM). cbv beta in Hb. lia. }
  destruct (mapM_total (fun g => createChunk subs g contextSize) (groupsOf M)) as [ws Hws].
  { intros g Hg. destruct (Hw g Hg) as (w & E & _). eauto. }
  assert (HF : Forall2 (windowOf subs) (groupsOf M) ws).
  { apply (Forall2_impl_In _ _ _ _ (mapM_Forall2 _ _ _ Hws)).
    intros g w Hg E. destruct (Hw g Hg) as (w' & E' & Hwin). congruence. }
  destruct M as [|m M'] eqn:EM.
  - exists []. split; [reflexivity|]. constructor.
  - exists ws. split; [|exact HF]. rewrite Hsort, Hgroups. exact Hws.
Qed.

(** When the cues carry their positions as indices, no cue is both a
    match and a context cue of a window. *)
Lemma snippet_windows_disjoint (subs : list ParsedSubtitle) (tokens : list SearchToken)
    (windows : list SubtitleChunk) :
  dense subs -> tokens <> [] ->
  matchingSubtitlesOf toLowerCase subs false tokens = Some windows ->
  forall w sub, In w windows -> In sub (matches w) -> ~ In sub (context w).
Proof.
  intros Hd Hne H w sub Hw Hm Hc.
  destruct (snippet_windows subs tokens Hne) as (ws & E & HF).
  rewrite E in H. injection H as ->.
  set (gs := groupsOf (matchingFrom toLowerCase tokens 0 subs)) in HF.
  clearbody gs. clear E.
  induction HF as [|g w' gs' ws' Hwin _ IH]; [destruct Hw|].
  destruct Hw as [-> | Hw]; [|exact (IH Hw)].
  destruct Hwin as (f & l & _ & _ & Hms & Hctx & _).
  destruct (mapM_get_In _ _ _ _ Hms Hm) as (p & Hp & Hget).
  destruct (Hctx sub Hc) as (q & _ & _ & Hn).
  rewrite (dense_get subs p sub Hd Hget) in Hn. contradiction.
Qed.

End Snippets.

End WindowFacts.

(** * Claims about the cue grouper *)

(** C2, as the code has it.  With no token the grouper returns no window
    in snippet mode, and in full-transcript mode it returns one window
    with no match and the whole transcript as context. *)
Theorem empty_tokens_windows :
  forall (toLowerCase : str -> str),
    (forall subs,
        TVSegment.matchingSubtitlesOf toLowerCase subs false [] = Some [] /\
        TVSegment.matchingSubtitlesOf toLowerCase subs true []
        = Some [ {| TVSegment.matches := []; TVSegment.context := subs |} ]) /\
    (forall raw,
        TVSegment.getMatchingSubtitles toLowerCase
          {| TVSegment.subtitles := raw;
             TVSegment.searchTokens := [];
             TVSegment.showFullTranscript := false |} = Some [] /\
        TVSegment.getMatchingSubtitles toLowerCase
          {| TVSegment.subtitles := raw;
             TVSegment.searchTokens := [];
             TVSegment.showFullTranscript := true |}
        = Some [ {| TVSegment.matches := [];
                    TVSegment.context :=
                      TVSegment.parseSubtitles
                        {| TVSegment.subtitles := raw;
                           TVSegment.searchTokens := [];
                           TVSegment.showFullTranscript := true |} |} ]).
Proof.
  intros toLowerCase. split; intros; split; reflexivity.
Qed.

(** C2 as stated fails in full-transcript mode: for the transcript of
    cues 0 to 20 and no token, the grouper returns one window. *)
Lemma empty_tokens_full_transcript :
  TVSegment.matchingSubtitlesOf String_toLowerCase (cuesUpTo 20 [10]) true []
  = Some [ {| TVSegment.matches := []; TVSegment.context := cuesUpTo 20 [10] |} ] /\
  TVSegment.matchingSubtitlesOf String_toLowerCase (cuesUpTo 20 [10]) true [] <> Some [].
Proof.
  split; [reflexivity | discriminate].
Qed.

(** C3, at the transcript with a dropped block.  The token [guten] is in
    the first kept cue, at position 0; its index is 1.  [createChunk]
    removes from the context the cues whose index is a matching
    position, so the matching cue stays in the context: it is in both
    lists of the window. *)
Theorem snippet_window_overlap :
  TVSegment.getMatchingSubtitles String_toLowerCase
    {| TVSegment.subtitles := Some rawWithNote;
       TVSegment.searchTokens := [ {| value := u "guten" |} ];
       TVSegment.showFullTranscript := false |}
  = Some [ {| TVSegment.matches :=
                [ {| TVSegment.index := 1;
                     TVSegment.time := u "00:00:01.000 --> 00:00:04.000";
                     TVSegment.text := u "Guten Abend" |} ];
              TVSegment.context :=
                [ {| TVSegment.index := 1;
                     TVSegment.time := u "00:00:01.000 --> 00:00:04.000";
                     TVSegment.text := u "Guten Abend" |};
                  {| TVSegment.index := 2;
                     TVSegment.time := u "00:00:04.000 --> 00:00:08.000";
                     TVSegment.text := u "Die Wahl" |} ] |} ].
Proof. vm_compute. reflexivity. Qed.

(** Grouping in snippet mode.  With at least one token the grouper
    returns the windows of the groups of the matching positions.  The
    groups, one after the other, are the matching positions in ascending
    order; inside a group every index is at most [2 * contextSize = 10]
    after the one before it, and the first index of a group is more than
    10 after the last index of the group before it.  The window of a
    group has the cues at the positions of the group as matches, and its
    context lies in [firstMatch - 5 .. lastMatch + 5] clamped to the
    transcript.  Scenarios: cues 0 to 20 with a match at 10 only; cues 0
    to 40 with matches at 10 and 18, at 10 and 30, at 10 and 20, at 10
    and 21. *)
Lemma snippet_grouping :
  (forall (toLowerCase : str -> str) subs tokens,
      tokens <> [] ->
      exists groups windows,
        TVSegment.matchingSubtitlesOf toLowerCase subs false tokens = Some windows /\
        concat groups = matchingFrom toLowerCase tokens 0 subs /\
        StronglySorted Z.lt (concat groups) /\
        (forall p,
            In p (concat groups) <->
            exists sub, get subs p = Some sub /\
                        TVSegment.tokenMatches toLowerCase tokens sub = true) /\
        linked groups /\
        Forall2 (windowOf subs) groups windows) /\
  TVSegment.matchingSubtitlesOf String_toLowerCase (cuesUpTo 20 [10]) false [wahl]
  = Some [ {| TVSegment.matches := [cueAt [10] 10];
              TVSegment.context :=
                map (cueAt [10]) [5; 6; 7; 8; 9; 11; 12; 13; 14; 15] |} ] /\
  TVSegment.matchingSubtitlesOf String_toLowerCase (cuesUpTo 40 [10; 18]) false [wahl]
  = Some [ {| TVSegment.matches := map (cueAt [10; 18]) [10; 18];
              TVSegment.context :=
                map (cueAt [10; 18])
                    [5; 6; 7; 8; 9; 11; 12; 13; 14; 15; 16; 17; 19; 20; 21; 22; 23] |} ] /\
  TVSegment.matchingSubtitlesOf String_toLowerCase (cuesUpTo 40 [10; 30]) false [wahl]
  = Some [ {| TVSegment.matches := [cueAt [10; 30] 10];
              TVSegment.context :=
                map (cueAt [10; 30]) [5; 6; 7; 8; 9; 11; 12; 13; 14; 15] |};
           {| TVSegment.matches := [cueAt [10; 30] 30];
              TVSegment.context :=
                map (cueAt [10; 30]) [25; 26; 27; 28; 29; 31; 32; 33; 34; 35] |} ] /\
  option_map (map (fun w => map TVSegment.index (TVSegment.matches w)))
    (TVSegment.matchingSubtitlesOf String_toLowerCase (cuesUpTo 40 [10; 20]) false [wahl])
  = Some [ [10; 20] ] /\
  option_map (map (fun w => map TVSegment.index (TVSegment.matches w)))
    (TVSegment.matchingSubtitlesOf String_toLowerCase (cuesUpTo 40 [10; 21]) false [wahl])
  = Some [ [10]; [21] ].
Proof.
  split; [|repeat split; vm_compute; reflexivity].
  intros toLowerCase subs tokens Hne.
  destruct (WindowFacts.snippet_windows toLowerCase subs tokens Hne) as (windows & E & HF).
  exists (groupsOf (matchingFrom toLowerCase tokens 0 subs)), windows.
  rewrite WindowFacts.groupsOf_concat.
  split; [exact E|]. split; [reflexivity|].
  split; [apply GrouperFacts.matchingFrom_increasing|].
  split; [|split; [apply WindowFacts.groupsOf_linked | exact HF]].
  intros p. rewrite GrouperFacts.matchingFrom_In, Z.sub_0_r. reflexivity.
Qed.

Lemma snippet_grouping_witness :
  exists groups windows,
    TVSegment.matchingSubtitlesOf String_toLowerCase (cuesUpTo 40 [10; 18; 30]) false [wahl]
    = Some windows /\
    concat groups = [10; 18; 30] /\
    linked groups /\
    Forall2 (windowOf (cuesUpTo 40 [10; 18; 30])) groups windows.
Proof.
  destruct (proj1 snippet_grouping String_toLowerCase (cuesUpTo 40 [10; 18; 30]) [wahl])
    as (groups & windows & Hw & Hc & _ & _ & Hl & HF); [discriminate|].
  exists groups, windows. repeat split; assumption.
Defined.

(** C9, at the transcript with a dropped block.  The token [wahl] is in
    the second kept cue only, at position 1: the one group is [[1]] and
    its range [firstMatch - 5 .. lastMatch + 5], clamped, is the positions
    0 to 1, both cues.  [createChunk] removes from the range the cues
    whose index is in the group: the cue at position 0, which has index
    1, and not the matching cue, which has index 2.  The window holds the
    matching cue twice and not the cue at position 0: it does not cover
    its range. *)
Theorem snippet_window_misses_cue :
  TVSegment.parseSubtitles
    {| TVSegment.subtitles := Some rawWithNote;
       TVSegment.searchTokens := [wahl];
       TVSegment.showFullTranscript := false |}
  = [gutenAbend; dieWahl] /\
  TVSegment.collectMatching String_toLowerCase [wahl] [gutenAbend; dieWahl] 0 [] = [1] /\
  slice [gutenAbend; dieWahl]
        (Z.max 0 (1 - TVSegment.contextSize))
        (Z.min (len [gutenAbend; dieWahl] - 1) (1 + TVSegment.contextSize) + 1)
  = [gutenAbend; dieWahl] /\
  TVSegment.getMatchingSubtitles String_toLowerCase
    {| TVSegment.subtitles := Some rawWithNote;
       TVSegment.searchTokens := [wahl];
       TVSegment.showFullTranscript := false |}
  = Some [ {| TVSegment.matches := [dieWahl]; TVSegment.context := [dieWahl] |} ] /\
  ~ In gutenAbend ([dieWahl] ++ [dieWahl]).
Proof.
  split; [vm_compute; reflexivity|].
  split; [vm_compute; reflexivity|].
  split; [vm_compute; reflexivity|].
  split; [vm_compute; reflexivity|].
  intros [H | [H | []]]; discriminate H.
Qed.

(** * The page search *)

Lemma str_eqb_eq (a b : str) : str_eqb a b = true <-> a = b.
Proof.
  revert b. induction a as [|x a IH]; intros [|y b]; simpl;
    try (split; [discriminate | discriminate]); [tauto|].
  rewrite andb_true_iff, N.eqb_eq, IH. split.
  - intros [-> ->]. reflexivity.
  - intros H. injection H as -> ->. auto.
Qed.

Section PageFacts.

Variable SimplifiedTVItem : Type.
Variable title : SimplifiedTVItem -> str.
Variable data_search :
  str -> list SimplifiedTVItem -> bool -> MainPage.SearchResult SimplifiedTVItem.

Let Page := MainPage.MainPage SimplifiedTVItem.

Lemma isSelected_In (p : Page) (item : SimplifiedTVItem) :
  MainPage.isSelected SimplifiedTVItem title p item = true <->
  In (title item) (MainPage.selectedBroadcasts SimplifiedTVItem p).
Proof.
  unfold MainPage.isSelected. rewrite existsb_exists. split.
  - intros (t & Ht & E). apply str_eqb_eq in E. rewrite E. exact Ht.
  - intros H. exists (title item). split; [exact H | apply str_eqb_eq; reflexivity].
Qed.

(** Below three code units [search] does not call [data_search]: the
    result has no token and holds the items of [data], narrowed by the
    selected broadcasts if there are any. *)
Lemma search_short_query (p : Page) :
  len (MainPage.query SimplifiedTVItem p) < 3 ->
  MainPage.searchResult SimplifiedTVItem
    (MainPage.search SimplifiedTVItem title data_search p)
  = {| MainPage.items :=
         if 0 <? len (MainPage.selectedBroadcasts SimplifiedTVItem p)
         then filter (MainPage.isSelected SimplifiedTVItem title p)
                     (MainPage.data SimplifiedTVItem p)
         else MainPage.data SimplifiedTVItem p;
       MainPage.tokens := [] |}.
Proof.
  intros H. unfold MainPage.search.
  destruct (Z.ltb_spec (len (MainPage.query SimplifiedTVItem p)) 3); [reflexivity | lia].
Qed.

End PageFacts.

(** C8 (empty-token passthrough).  When the query has fewer than three
    code units, and in particular when the trimmed value of the input
    field has, the result of [search] has no token; its items are all the
    items of [data] when no broadcast is selected (so they are not empty
    unless [data] is), and otherwise the items of [data] whose title is
    selected, in the order of [data]. *)
Theorem short_query_passthrough :
  forall (SimplifiedTVItem : Type) (title : SimplifiedTVItem -> str)
         (data_search : str -> list SimplifiedTVItem -> bool ->
                        MainPage.SearchResult SimplifiedTVItem)
         (p : MainPage.MainPage SimplifiedTVItem),
    let shown (p' : MainPage.MainPage SimplifiedTVItem) :=
      MainPage.tokens _ (MainPage.searchResult _ p') = [] /\
      MainPage.items _ (MainPage.searchResult _ p')
      = (if 0 <? len (MainPage.selectedBroadcasts _ p)
         then filter (MainPage.isSelected _ title p) (MainPage.data _ p)
         else MainPage.data _ p) /\
      (MainPage.selectedBroadcasts _ p = [] ->
       MainPage.items _ (MainPage.searchResult _ p') = MainPage.data _ p /\
       (MainPage.data _ p <> [] -> MainPage.items _ (MainPage.searchResult _ p') <> [])) /\
      (MainPage.selectedBroadcasts _ p <> [] ->
       forall item,
         In item (MainPage.items _ (MainPage.searchResult _ p')) <->
         In item (MainPage.data _ p) /\
         In (title item) (MainPage.selectedBroadcasts _ p)) in
    (len (MainPage.query _ p) < 3 ->
     shown (MainPage.search _ title data_search p)) /\
    (forall inputValue,
        len (trim inputValue) < 3 ->
        shown (MainPage.handleSearchInput _ title data_search inputValue p)).
Proof.
  intros Item title data_search p shown.
  assert (Hshown : forall p',
             MainPage.searchResult _ p'
             = {| MainPage.items :=
                    if 0 <? len (MainPage.selectedBroadcasts _ p)
                    then filter (MainPage.isSelected _ title p) (MainPage.data _ p)
                    else MainPage.data _ p;
                  MainPage.tokens := [] |} -> shown p').
  { intros p' E. unfold shown. rewrite E. cbn [MainPage.items MainPage.tokens].
    split; [reflexivity|]. split; [reflexivity|]. split.
    - intros ->. split; [reflexivity | auto].
    - intros Hne item.
      destruct (MainPage.selectedBroadcasts Item p) as [|b bs] eqn:Eb; [contradiction|].
      rewrite len_cons. pose proof (len_nonneg bs).
      destruct (Z.ltb_spec 0 (len bs + 1)); [|lia].
      rewrite filter_In, (isSelected_In Item title p item), Eb. tauto. }
  split.
  - intros H. apply Hshown, search_short_query, H.
  - intros inputValue H. apply Hshown. unfold MainPage.handleSearchInput.
    rewrite search_short_query by exact H. reflexivity.
Qed.

Lemma short_query_passthrough_witness :
  MainPage.items _
    (MainPage.searchResult _
       (MainPage.handleSearchInput (list N) (fun item => item)
          (fun _ _ _ => {| MainPage.items := []; MainPage.tokens := [] |})
          (u "  zi ")
          {| MainPage.data := [u "ZIB 1"; u "ZIB 2"; u "Wetter"];
             MainPage.searchResult := {| MainPage.items := []; MainPage.tokens := [] |};
             MainPage.subtitles := true;
             MainPage.query := [];
             MainPage.selectedBroadcasts := [] |}))
  = [u "ZIB 1"; u "ZIB 2"; u "Wetter"].
Proof.
  destruct (short_query_passthrough (list N) (fun item => item)
              (fun _ _ _ => {| MainPage.items := []; MainPage.tokens := [] |})
              {| MainPage.data := [u "ZIB 1"; u "ZIB 2"; u "Wetter"];
                 MainPage.searchResult := {| MainPage.items := []; MainPage.tokens := [] |};
                 MainPage.subtitles := true;
                 MainPage.query := [];
                 MainPage.selectedBroadcasts := [] |}) as [_ Hinput].
  destruct (Hinput (u "  zi ") ltac:(vm_compute; reflexivity)) as (_ & _ & Hall & _).
  apply (proj1 (Hall eq_refl)).
Defined.

(** * Occurrences and [indexOf] *)

Lemma isPrefix_firstn (v t : str) :
  isPrefix v t = true <-> firstn (length v) t = v.
Proof.
  revert t. induction v as [|c v IH]; intros t; simpl.
  - split; reflexivity.
  - destruct t as [|d t]; simpl.
    + split; discriminate.
    + rewrite andb_true_iff, N.eqb_eq, IH. split.
      * intros [-> ->]. reflexivity.
      * intros H. injection H as -> H. split; [reflexivity | exact H].
Qed.

Lemma slice_occurrence (s : str) (q n : Z) :
  0 <= q -> 0 <= n -> q + n <= len s ->
  slice s q (q + n) = firstn (Z.to_nat n) (skipn (Z.to_nat q) s).
Proof.
  intros Hq Hn Hle. rewrite slice_firstn_skipn by lia.
  rewrite !Z.min_l by lia. f_equal. lia.
Qed.

Lemma occursAt_isPrefix (s v : str) (q : Z) :
  occursAt s v q <->
  0 <= q <= len s /\ isPrefix v (skipn (Z.to_nat q) s) = true.
Proof.
  unfold occursAt. pose proof (len_nonneg v) as Hv. split.
  - intros (Hq & Hle & Hs). split; [lia|].
    rewrite slice_occurrence in Hs by lia.
    apply isPrefix_firstn. unfold len in Hs. rewrite Nat2Z.id in Hs. exact Hs.
  - intros (Hq & Hp).
    assert (Hle : q + len v <= len s).
    { apply isPrefix_len in Hp. unfold len in *. rewrite length_skipn in Hp. lia. }
    split; [lia|]. split; [exact Hle|].
    rewrite slice_occurrence by lia.
    unfold len. rewrite Nat2Z.id. apply isPrefix_firstn, Hp.
Qed.

Lemma stringIndexOf_spec (v t : str) :
  forall k,
    0 <= k ->
    (stringIndexOf t v k = -1 /\
     forall j, (j <= length t)%nat -> isPrefix v (skipn j t) = false) \/
    (k <= stringIndexOf t v k /\
     isPrefix v (skipn (Z.to_nat (stringIndexOf t v k - k)) t) = true /\
     forall j, (j < Z.to_nat (stringIndexOf t v k - k))%nat ->
               isPrefix v (skipn j t) = false).
Proof.
  induction t as [|c t IH]; intros k Hk; cbn [stringIndexOf].
  - destruct (isPrefix v []) eqn:E.
    + right. rewrite Z.sub_diag. split; [lia|]. split; [exact E|]. intros j Hj. simpl in Hj. lia.
    + left. split; [reflexivity|]. intros j Hj. simpl in Hj.
      replace j with 0%nat by lia. exact E.
  - destruct (isPrefix v (c :: t)) eqn:E.
    + right. rewrite Z.sub_diag. split; [lia|]. split; [exact E|]. intros j Hj. simpl in Hj. lia.
    + destruct (IH (k + 1) ltac:(lia)) as [[Hr Hall] | (Hr & Hp & Hmin)].
      * left. split; [exact Hr|]. intros [|j] Hj; [exact E|].
        apply Hall. simpl in Hj. lia.
      * right. split; [lia|].
        replace (Z.to_nat (stringIndexOf t v (k + 1) - k))
          with (S (Z.to_nat (stringIndexOf t v (k + 1) - (k + 1)))) by lia.
        split; [exact Hp|]. intros [|j] Hj; [exact E|].
        apply Hmin. lia.
Qed.

(** [indexOf] finds the first occurrence at or after the clamped
    position, and answers [-1] only when there is none. *)
Lemma indexOf_spec (s v : str) (pos : Z) :
  (indexOf s v pos = -1 /\
   forall q, Z.min (Z.max pos 0) (len s) <= q -> ~ occursAt s v q) \/
  (Z.min (Z.max pos 0) (len s) <= indexOf s v pos /\
   occursAt s v (indexOf s v pos) /\
   forall q, Z.min (Z.max pos 0) (len s) <= q < indexOf s v pos -> ~ occursAt s v q).
Proof.
  unfold indexOf. pose proof (len_nonneg s) as Hs.
  set (from := Z.min (Z.max pos 0) (len s)).
  assert (Hfrom : 0 <= from <= len s) by lia.
  set (t := skipn (Z.to_nat from) s).
  assert (Hskip : forall j, skipn j t = skipn (j + Z.to_nat from) s)
    by (intros j; unfold t; apply skipn_skipn).
  assert (Ht : length t = (length s - Z.to_nat from)%nat)
    by (unfold t; apply length_skipn).
  destruct (stringIndexOf_spec v t from ltac:(lia)) as [[Hr Hall] | (Hr & Hp & Hmin)].
  - left. split; [exact Hr|]. intros q Hq Hocc.
    apply occursAt_isPrefix in Hocc as [Hqb Hocc].
    specialize (Hall (Z.to_nat q - Z.to_nat from)%nat ltac:(unfold len in *; lia)).
    rewrite Hskip in Hall.
    replace (Z.to_nat q - Z.to_nat from + Z.to_nat from)%nat with (Z.to_nat q) in Hall by lia.
    congruence.
  - right. split; [exact Hr|]. split.
    + apply occursAt_isPrefix. rewrite Hskip in Hp.
      replace (Z.to_nat (stringIndexOf t v from - from) + Z.to_nat from)%nat
        with (Z.to_nat (stringIndexOf t v from)) in Hp by lia.
      split; [|exact Hp].
      destruct (stringIndexOf_bounds v t from) as [Hb | [_ Hb]]; [lia|].
      pose proof (len_nonneg v). unfold len in *. lia.
    + intros q Hq Hocc.
      apply occursAt_isPrefix in Hocc as [Hqb Hocc].
      specialize (Hmin (Z.to_nat q - Z.to_nat from)%nat ltac:(lia)).
      rewrite Hskip in Hmin.
      replace (Z.to_nat q - Z.to_nat from + Z.to_nat from)%nat with (Z.to_nat q) in Hmin by lia.
      congruence.
Qed.

(** * More on the span finder *)

Lemma findPositions_sound (s v : str) (fuel : nat) :
  forall pos spans,
    0 <= pos <= len s ->
    findPositions fuel s v pos = Some spans ->
    Forall (fun m => pos <= start m /\ occursAt s v (start m) /\
                     end_ m = start m + len v) spans /\
    StronglySorted endsBefore spans.
Proof.
  induction fuel as [|fuel IH]; intros pos spans Hpos H; cbn [findPositions] in H;
    [discriminate|].
  destruct (Z.eqb_spec (indexOf s v pos) (-1)) as [E | E].
  - injection H as <-. split; constructor.
  - destruct (findPositions fuel s v (indexOf s v pos + len v)) as [rest|] eqn:Er;
      cbn [bind] in H; [|discriminate].
    injection H as <-.
    destruct (indexOf_spec s v pos) as [[Hr _] | (Hfrom & Hocc & _)]; [contradiction|].
    pose proof (len_nonneg v) as Hv.
    assert (Hb : 0 <= indexOf s v pos + len v <= len s)
      by (destruct Hocc as (? & ? & _); lia).
    destruct (IH _ _ Hb Er) as [Hall Hsorted].
    split.
    + constructor; [cbn [start end_]; split; [lia|]; split; [exact Hocc | reflexivity]|].
      eapply Forall_impl; [|exact Hall]. cbv beta. intros m (H1 & H2 & H3).
      split; [lia|]. split; assumption.
    + constructor; [exact Hsorted|].
      eapply Forall_impl; [|exact Hall]. unfold endsBefore. cbn [start end_].
      intros m (H1 & _). exact H1.
Qed.

Lemma findPositions_complete (s v : str) (fuel : nat) :
  forall pos spans q,
    0 <= pos ->
    findPositions fuel s v pos = Some spans ->
    pos <= q -> occursAt s v q ->
    exists m, In m spans /\ inSpan m q.
Proof.
  induction fuel as [|fuel IH]; intros pos spans q Hpos H Hq Hocc;
    cbn [findPositions] in H; [discriminate|].
  assert (Hqs : Z.min (Z.max pos 0) (len s) <= q).
  { clear - Hpos Hq Hocc. destruct Hocc as (? & ? & _). pose proof (len_nonneg v). lia. }
  destruct (Z.eqb_spec (indexOf s v pos) (-1)) as [E | E].
  - pose proof (len_nonneg s).
    destruct (indexOf_spec s v pos) as [[_ Hnone] | (Hfrom & _)]; [|lia].
    destruct (Hnone q Hqs Hocc).
  - destruct (findPositions fuel s v (indexOf s v pos + len v)) as [rest|] eqn:Er;
      cbn [bind] in H; [|discriminate].
    injection H as <-.
    destruct (indexOf_spec s v pos) as [[Hr _] | (Hfrom & Hfound & Hmin)]; [contradiction|].
    destruct (Z.lt_ge_cases q (indexOf s v pos)) as [Hlt | Hge].
    + destruct (Hmin q ltac:(lia) Hocc).
    + destruct (Z.lt_ge_cases q (indexOf s v pos + len v)) as [Hin | Hout].
      * eexists. split; [left; reflexivity|]. unfold inSpan. cbn [start end_]. lia.
      * destruct (IH (indexOf s v pos + len v) rest q) as (m & Hm & Hmq);
          try assumption; [pose proof (len_nonneg v); pose proof (len_nonneg s); lia|].
        exists m. split; [right; exact Hm | exact Hmq].
Qed.

(** X1.  Every span that the span finder returns is an occurrence of the
    token in the lowered text, and the spans of one token come in
    ascending order without overlap. *)
Theorem findSpans_sound :
  forall (toLowerCase : str -> str) (fuel : nat) (text : str) (token : SearchToken)
         (spans : list Span),
    findSpans toLowerCase fuel text token = Some spans ->
    Forall (fun m => occursAt (toLowerCase text) (value token) (start m) /\
                     end_ m = start m + len (value token)) spans /\
    StronglySorted endsBefore spans.
Proof.
  intros toLowerCase fuel text token spans H.
  pose proof (len_nonneg (toLowerCase text)) as Hl.
  destruct (findPositions_sound (toLowerCase text) (value token) fuel 0 spans
              ltac:(lia) H) as [Hall Hs].
  split; [|exact Hs].
  eapply Forall_impl; [|exact Hall]. cbv beta. intros m (_ & H1 & H2). auto.
Qed.

Lemma findSpans_sound_witness :
  Forall (fun m => occursAt (u "banana") (u "ana") (start m) /\ end_ m = start m + 3)
         [ {| start := 1; end_ := 4 |} ] /\
  StronglySorted endsBefore [ {| start := 1; end_ := 4 |} ].
Proof.
  apply (findSpans_sound String_toLowerCase 7 (u "Banana") {| value := u "ana" |}).
  reflexivity.
Defined.

(** X2.  Every occurrence of the token in the lowered text starts inside
    one of the spans found: the search skips an occurrence only when it
    overlaps the span found just before. *)
Theorem findSpans_complete :
  forall (toLowerCase : str -> str) (fuel : nat) (text : str) (token : SearchToken)
         (spans : list Span) (q : Z),
    findSpans toLowerCase fuel text token = Some spans ->
    occursAt (toLowerCase text) (value token) q ->
    exists m, In m spans /\ inSpan m q.
Proof.
  intros toLowerCase fuel text token spans q H Hocc.
  apply (findPositions_complete (toLowerCase text) (value token) fuel 0 spans q
           ltac:(lia) H); [|exact Hocc].
  destruct Hocc as (H0 & _). exact H0.
Qed.

Lemma findSpans_complete_witness :
  exists m, In m [ {| start := 1; end_ := 4 |} ] /\ inSpan m 3.
Proof.
  apply (findSpans_complete String_toLowerCase 7 (u "Banana") {| value := u "ana" |}
           [ {| start := 1; end_ := 4 |} ] 3).
  - reflexivity.
  - unfold occursAt. repeat split; vm_compute; congruence.
Defined.

(** * More on the merge *)

Lemma disjointFrom_sorted (l : list Span) :
  forall e,
    disjointFrom e l ->
    Forall wfSpan l /\ StronglySorted gapBefore l /\ StronglySorted leStart l.
Proof.
  induction l as [|m r IH]; intros e H; [repeat split; constructor|].
  destruct H as (H1 & H2 & H3). destruct (IH _ H3) as (Hw & Hg & Hs).
  assert (Hafter : Forall (fun x => end_ m < start x) r).
  { apply Forall_forall. intros x Hx. apply (disjointFrom_In r _ _ H3 Hx). }
  split; [constructor; assumption|]. split.
  - constructor; [exact Hg | exact Hafter].
  - constructor; [exact Hs|]. eapply Forall_impl; [|exact Hafter].
    unfold leStart. cbv beta. intros; lia.
Qed.

(** Spans with [start <= end] merge into spans that start after some
    position [e] and are disjoint. *)
Lemma mergeSpans_disjointFrom (ms : list Span) :
  Forall wfSpan ms -> exists e, disjointFrom e (mergeSpans ms).
Proof.
  intros Hwf. unfold mergeSpans.
  pose proof (sort_perm start ms) as Hp.
  pose proof (sort_sorted start ms) as Hs.
  change (fun a b : Span => start a - start b) with byStart in Hp, Hs.
  apply (Permutation_Forall Hp) in Hwf.
  destruct (sort byStart ms) as [|c r]; [exists 0; exact I|].
  rewrite mergeMatches_sweep.
  inversion Hwf as [|? ? Hc Hr]; subst.
  inversion Hs as [|? ? Hsr Hcr]; subst.
  exists (start c - 1). apply sweep_disjoint; auto. lia.
Qed.

Lemma sweep_fixed (rest : list Span) :
  forall cur, disjointFrom (end_ cur) rest -> sweep cur rest = cur :: rest.
Proof.
  induction rest as [|m r IH]; intros cur H; cbn [sweep]; [reflexivity|].
  destruct H as (H1 & H2 & H3).
  destruct (Z.leb_spec (start m) (end_ cur)); [lia|].
  rewrite (IH m H3). reflexivity.
Qed.

Lemma sweep_points (rest : list Span) :
  forall cur m x,
    In m (sweep cur rest) -> inSpan m x ->
    inSpan cur x \/ exists a, In a rest /\ inSpan a x.
Proof.
  unfold inSpan.
  induction rest as [|a r IH]; intros cur m x Hm Hx; cbn [sweep] in Hm.
  - destruct Hm as [<- | []]. left. exact Hx.
  - destruct (Z.leb_spec (start a) (end_ cur)).
    + destruct (IH _ m x Hm Hx) as [Hc | (b & Hb & Hbx)].
      * cbn [start end_] in Hc.
        destruct (Z.lt_ge_cases x (end_ cur)); [left; lia|].
        right. exists a. split; [left; reflexivity | lia].
      * right. exists b. split; [right; exact Hb | exact Hbx].
    + destruct Hm as [<- | Hm]; [left; exact Hx|].
      destruct (IH _ m x Hm Hx) as [Hc | (b & Hb & Hbx)].
      * right. exists a. split; [left; reflexivity | exact Hc].
      * right. exists b. split; [right; exact Hb | exact Hbx].
Qed.

Lemma sweep_nonempty (rest : list Span) : forall cur, sweep cur rest <> [].
Proof.
  induction rest as [|a r IH]; intros cur; cbn [sweep]; [discriminate|].
  destruct (start a <=? end_ cur); [apply IH | discriminate].
Qed.

Lemma mergeSpans_nil (ms : list Span) : mergeSpans ms = [] -> ms = [].
Proof.
  unfold mergeSpans. intros H.
  pose proof (sort_perm start ms) as Hp.
  change (fun a b : Span => start a - start b) with byStart in Hp.
  destruct (sort byStart ms) as [|c r].
  - apply Permutation_sym, Permutation_nil in Hp. exact Hp.
  - rewrite mergeMatches_sweep in H. destruct (sweep_nonempty r c H).
Qed.

(** X3.  The merged spans keep [start <= end], are in ascending order,
    and any two of them have at least one position between the end of the
    earlier and the start of the later: they neither overlap nor touch. *)
Theorem mergeSpans_separated :
  forall ms : list Span,
    Forall wfSpan ms ->
    Forall wfSpan (mergeSpans ms) /\ StronglySorted gapBefore (mergeSpans ms).
Proof.
  intros ms Hwf. destruct (mergeSpans_disjointFrom ms Hwf) as [e He].
  destruct (disjointFrom_sorted _ _ He) as (H1 & H2 & _). auto.
Qed.

Lemma mergeSpans_separated_witness :
  StronglySorted gapBefore
    (mergeSpans [ {| start := 7; end_ := 9 |}; {| start := 0; end_ := 3 |};
                  {| start := 3; end_ := 5 |} ]).
Proof.
  apply mergeSpans_separated.
  repeat constructor; unfold wfSpan; simpl; lia.
Defined.

(** X4.  Merging changes no position: a position lies in a merged span
    when, and only when, it lies in a span of the input. *)
Theorem mergeSpans_points :
  forall (ms : list Span) (x : Z),
    (exists m, In m (mergeSpans ms) /\ inSpan m x) <->
    (exists a, In a ms /\ inSpan a x).
Proof.
  intros ms x. split.
  - intros (m & Hm & Hx). unfold mergeSpans in Hm.
    pose proof (sort_perm start ms) as Hp.
    change (fun a b : Span => start a - start b) with byStart in Hp.
    destruct (sort byStart ms) as [|c r] eqn:E; [destruct Hm|].
    rewrite mergeMatches_sweep in Hm.
    destruct (sweep_points r c m x Hm Hx) as [Hc | (a & Ha & Hax)].
    + exists c. split; [|exact Hc].
      apply (Permutation_in _ (Permutation_sym Hp)). left; reflexivity.
    + exists a. split; [|exact Hax].
      apply (Permutation_in _ (Permutation_sym Hp)). right; exact Ha.
  - intros (a & Ha & Hx).
    destruct (mergeSpans_covers ms a Ha) as (m & Hm & Hc).
    exists m. split; [exact Hm|]. unfold covers, inSpan in *. lia.
Qed.

(** X5.  Merging is idempotent: merged spans merge into themselves. *)
Theorem mergeSpans_idempotent :
  forall ms : list Span,
    Forall wfSpan ms -> mergeSpans (mergeSpans ms) = mergeSpans ms.
Proof.
  intros ms Hwf. destruct (mergeSpans_disjointFrom ms Hwf) as [e He].
  destruct (disjointFrom_sorted _ _ He) as (_ & _ & Hs).
  unfold mergeSpans at 1.
  change byStart with (fun a b : Span => start a - start b).
  rewrite (sort_of_sorted start) by exact Hs.
  destruct (mergeSpans ms) as [|c r]; [reflexivity|].
  rewrite mergeMatches_sweep. apply sweep_fixed.
  destruct He as (_ & _ & He). exact He.
Qed.

Lemma mergeSpans_idempotent_witness :
  mergeSpans (mergeSpans [ {| start := 2; end_ := 6 |}; {| start := 0; end_ := 3 |} ])
  = mergeSpans [ {| start := 2; end_ := 6 |}; {| start := 0; end_ := 3 |} ].
Proof.
  apply mergeSpans_idempotent.
  repeat constructor; unfold wfSpan; simpl; lia.
Defined.

(** * More on the highlighter *)

Lemma render_length (chunks : list Chunk) :
  len (concat (map renderChunk chunks))
  = len (concat (map chunkContent chunks)) + 13 * len (filter isMarked chunks).
Proof.
  induction chunks as [|c r IH]; [reflexivity|].
  cbn [map concat filter]. rewrite !len_app, IH.
  destruct c as [s | s]; cbn [renderChunk chunkContent isMarked].
  - lia.
  - rewrite !len_app, len_cons. change (len (u "<mark>")) with 6.
    change (len (u "</mark>")) with 7. lia.
Qed.

Lemma buildStep_marked (text : str) (ms : list Span) :
  forall st,
    len (filter isMarked (fst (fold_left (buildStep text) ms st)))
    = len (filter isMarked (fst st)) + len ms.
Proof.
  induction ms as [|m r IH]; intros st; cbn [fold_left]; [unfold len; simpl; lia|].
  rewrite IH. unfold buildStep. cbn [fst]. rewrite filter_app. cbn [filter isMarked].
  rewrite len_app, !len_cons. unfold len. simpl. lia.
Qed.

(** One marked chunk for every merged span. *)
Lemma buildChunks_marked (text : str) (ms : list Span) :
  len (filter isMarked (buildChunks text ms)) = len ms.
Proof.
  unfold buildChunks. rewrite filter_app. cbn [filter isMarked].
  rewrite app_nil_r, buildStep_marked. reflexivity.
Qed.

Section HighlighterMore.

Variable toLowerCase : str -> str.

Lemma findMatches_none_found (fuel : nat) (text : str) (tokens : list SearchToken) :
  findMatches toLowerCase (S fuel) text tokens = Some [] <->
  Forall (fun token => includes (toLowerCase text) (value token) = false) tokens.
Proof.
  unfold findMatches, findSpans, includes.
  induction tokens as [|t ts IH]; cbn [flatMapM findPositions].
  - split; [constructor | reflexivity].
  - destruct (indexOf (toLowerCase text) (value t) 0 =? -1) eqn:E; cbn [bind negb].
    + destruct (flatMapM _ ts) as [zs|]; cbn [bind app].
      * split.
        -- intros H. constructor; [cbv beta; rewrite E; reflexivity|]. apply IH. exact H.
        -- intros H. inversion H as [|? ? _ Hts]; subst. apply IH in Hts. exact Hts.
      * split; [discriminate|].
        intros H. inversion H as [|? ? _ Hts]; subst. apply IH in Hts. discriminate.
    + split.
      * destruct (findPositions fuel _ _ _); cbn [bind]; [|discriminate].
        destruct (flatMapM _ ts); cbn [bind]; discriminate.
      * intros H. inversion H as [|? ? Ht _]; subst. cbv beta in Ht.
        rewrite E in Ht. discriminate.
Qed.

Lemma highlightChunks_marked (fuel : nat) (text : str) (tokens : list SearchToken)
    (chunks : list Chunk) :
  highlightChunks toLowerCase (S fuel) text tokens = Some chunks ->
  (filter isMarked chunks = [] <->
   Forall (fun token => includes (toLowerCase text) (value token) = false) tokens).
Proof.
  unfold highlightChunks. destruct tokens as [|t ts].
  - intros H. injection H as <-. split; [constructor | reflexivity].
  - destruct (findMatches toLowerCase (S fuel) text (t :: ts)) as [found|] eqn:E;
      cbn [bind]; [|discriminate].
    intros H. injection H as <-.
    rewrite <- findMatches_none_found, E.
    pose proof (buildChunks_marked text (mergeSpans found)) as Hm. split.
    + intros H. rewrite H in Hm. f_equal.
      apply mergeSpans_nil. destruct (mergeSpans found); [reflexivity|].
      rewrite len_cons in Hm. pose proof (len_nonneg l). unfold len in Hm at 1. simpl in Hm. lia.
    + intros H. injection H as ->.
      change (mergeSpans []) with (@nil Span) in Hm.
      destruct (filter isMarked (buildChunks text [])); [reflexivity|].
      rewrite len_cons in Hm. pose proof (len_nonneg l). unfold len in Hm at 2. simpl in Hm. lia.
Qed.

End HighlighterMore.

(** X6.  With one unit of fuel or more, [highlightText] returns the text
    itself when, and only when, no token is found in the lowered text;
    in every other case that it returns, the result is longer than the
    text by the 13 code units of the two tags for every marked chunk. *)
Theorem highlight_unchanged_iff :
  forall (toLowerCase : str -> str) (fuel : nat) (text : str) (tokens : list SearchToken),
    (highlightText toLowerCase (S fuel) text tokens = Some text <->
     Forall (fun token => includes (toLowerCase text) (value token) = false) tokens) /\
    (forall chunks,
        highlightChunks toLowerCase (S fuel) text tokens = Some chunks ->
        len (concat (map renderChunk chunks))
        = len text + 13 * len (filter isMarked chunks)).
Proof.
  intros toLowerCase fuel text tokens.
  assert (Hlen : forall chunks,
             highlightChunks toLowerCase (S fuel) text tokens = Some chunks ->
             len (concat (map renderChunk chunks))
             = len text + 13 * len (filter isMarked chunks)).
  { intros chunks H. rewrite render_length.
    rewrite (highlightChunks_partition toLowerCase _ _ _ _ H). reflexivity. }
  split; [|exact Hlen]. unfold highlightText. split.
  - destruct (highlightChunks toLowerCase (S fuel) text tokens) as [chunks|] eqn:E;
      cbn [bind]; [|discriminate].
    intros H. injection H as H.
    apply (highlightChunks_marked toLowerCase fuel text tokens chunks E).
    specialize (Hlen chunks eq_refl). rewrite H in Hlen.
    destruct (filter isMarked chunks); [reflexivity|].
    rewrite len_cons in Hlen. pose proof (len_nonneg l). lia.
  - intros Hno.
    assert (Hfound := proj2 (findMatches_none_found toLowerCase fuel text tokens) Hno).
    unfold highlightChunks. destruct tokens as [|t ts].
    + cbn. rewrite app_nil_r. reflexivity.
    + rewrite Hfound. cbn [bind]. unfold mergeSpans, buildChunks. cbn.
      rewrite sliceFrom_0, app_nil_r. reflexivity.
Qed.

Lemma flatMapM_perm {A B : Type} (f : A -> option (list B)) (l l' : list A) :
  Permutation l l' ->
  match flatMapM f l, flatMapM f l' with
  | Some a, Some b => Permutation a b
  | None, None => True
  | _, _ => False
  end.
Proof.
  induction 1 as [|x l l' _ IH|x y l|l l' l'' _ IH1 _ IH2]; cbn [flatMapM].
  - constructor.
  - destruct (f x); cbn [bind]; [|exact I].
    destruct (flatMapM f l), (flatMapM f l'); cbn [bind]; try exact IH.
    apply Permutation_app_head, IH.
  - destruct (f x), (f y); cbn [bind]; try exact I.
    destruct (flatMapM f l); cbn [bind]; [|exact I].
    rewrite !app_assoc. apply Permutation_app_tail, Permutation_app_comm.
  - destruct (flatMapM f l), (flatMapM f l'), (flatMapM f l''); try tauto.
    eapply Permutation_trans; eassumption.
Qed.

(** X7.  The order of the tokens does not matter: two token lists that are
    permutations of each other give the same highlighted text. *)
Theorem highlightText_token_order :
  forall (toLowerCase : str -> str) (fuel : nat) (text : str)
         (tokens tokens' : list SearchToken),
    Permutation tokens tokens' ->
    highlightText toLowerCase fuel text tokens
    = highlightText toLowerCase fuel text tokens'.
Proof.
  intros toLowerCase fuel text tokens tokens' Hp.
  unfold highlightText. f_equal. unfold highlightChunks.
  destruct tokens as [|t ts].
  - apply Permutation_nil in Hp. subst. reflexivity.
  - destruct tokens' as [|t' ts']; [apply Permutation_sym, Permutation_nil in Hp; discriminate|].
    pose proof (flatMapM_perm (findSpans toLowerCase fuel text) _ _ Hp) as H.
    fold (findMatches toLowerCase fuel text (t :: ts)) in H.
    fold (findMatches toLowerCase fuel text (t' :: ts')) in H.
    destruct (findMatches toLowerCase fuel text (t :: ts)) as [found|] eqn:E,
             (findMatches toLowerCase fuel text (t' :: ts')) as [found'|];
      try contradiction; [|reflexivity].
    cbn [bind]. do 2 f_equal. apply mergeSpans_perm; [|exact H].
    eapply Forall_impl; [|apply (findMatches_bounds toLowerCase _ _ _ _ E)].
    cbv beta. unfold wfSpan. intros m [_ Hm]. exact Hm.
Qed.

Lemma highlightText_token_order_witness :
  highlightText String_toLowerCase 20 (u "Zeit im Bild")
    [ {| value := u "bild" |}; {| value := u "zeit" |} ]
  = highlightText String_toLowerCase 20 (u "Zeit im Bild")
    [ {| value := u "zeit" |}; {| value := u "bild" |} ].
Proof.
  apply highlightText_token_order. apply perm_swap.
Defined.

Lemma highlight_unchanged_iff_witness :
  len (concat (map renderChunk [Raw (u "Zeit im "); Marked (u "Bild"); Raw []]))
  = len (u "Zeit im Bild") + 13 * len (filter isMarked [Raw (u "Zeit im "); Marked (u "Bild"); Raw []]).
Proof.
  apply (proj2 (highlight_unchanged_iff String_toLowerCase 12 (u "Zeit im Bild")
                  [ {| value := u "bild" |} ])).
  reflexivity.
Defined.

(** * More on the cue parser *)

Module ParserMore.

Import TVSegment GrouperFacts.

Lemma parseBlock_index (block : str) (k : Z) (c : ParsedSubtitle) :
  parseBlock block k = Some c -> index c = k.
Proof.
  unfold parseBlock. destruct (len (split block nl) <? 3); [discriminate|].
  intros H. injection H as <-. reflexivity.
Qed.

Lemma mapi_parse_indices (blocks : list str) :
  forall k,
    StronglySorted (fun a b => index a < index b)
                   (filterNonNull (mapi parseBlock blocks k)) /\
    Forall (fun c => k <= index c /\
                     exists block, get blocks (index c - k) = Some block /\
                                   parseBlock block (index c) = Some c)
           (filterNonNull (mapi parseBlock blocks k)).
Proof.
  induction blocks as [|b r IH]; intros k; cbn [mapi filterNonNull flat_map].
  - split; constructor.
  - destruct (IH (k + 1)) as [Hs Hall].
    assert (Hall' : Forall (fun c => k < index c /\
                                     exists block, get (b :: r) (index c - k) = Some block /\
                                                   parseBlock block (index c) = Some c)
                           (filterNonNull (mapi parseBlock r (k + 1)))).
    { eapply Forall_impl; [|exact Hall]. cbv beta. intros c (Hk & block & Hg & Hp).
      split; [lia|]. exists block. split; [|exact Hp].
      rewrite get_cons by lia. replace (index c - k - 1) with (index c - (k + 1)) by lia.
      exact Hg. }
    destruct (parseBlock b k) as [c|] eqn:E; cbn [app].
    + pose proof (parseBlock_index _ _ _ E) as Hc. split.
      * constructor; [exact Hs|]. eapply Forall_impl; [|exact Hall'].
        cbv beta. intros c' [Hlt _]. lia.
      * constructor.
        -- split; [lia|]. exists b. rewrite Hc, Z.sub_diag. split; [reflexivity | exact E].
        -- eapply Forall_impl; [|exact Hall']. cbv beta. intros c' [Hlt H]. split; [lia | exact H].
    + split; [exact Hs|]. eapply Forall_impl; [|exact Hall'].
      cbv beta. intros c' [Hlt H]. split; [lia | exact H].
Qed.





(** Every cue comes from the block at the position of its index. *)
Lemma parseSubtitles_blocks (seg : TVSegment) (c : ParsedSubtitle) :
  In c (parseSubtitles seg) ->
  exists s block,
    subtitles seg = Some s /\
    get (sliceFrom (split s (nl ++ nl)) 1) (index c) = Some block /\
    parseBlock block (index c) = Some c.
Proof.
  unfold parseSubtitles.
  destruct (subtitles seg) as [s|]; [|intros []].
  destruct s as [|x s']; [intros []|].
  destruct (mapi_parse_indices (sliceFrom (split (x :: s') (nl ++ nl)) 1) 0) as [_ Hall].
  intros Hc. rewrite Forall_forall in Hall.
  destruct (Hall c Hc) as (_ & block & Hg & Hp).
  exists (x :: s'), block. rewrite Z.sub_0_r in Hg. auto.
Qed.

Lemma splitAux_no_separator (sep : str) (s : str) :
  forall cur,
    (forall j, (j <= length s)%nat -> isPrefix sep (skipn j s) = false) ->
    splitAux sep cur 0 s = [rev cur ++ s].
Proof.
  induction s as [|c s IH]; intros cur H; cbn [splitAux].
  - rewrite app_nil_r. reflexivity.
  - pose proof (H 0%nat ltac:(lia)) as H0. cbn [skipn] in H0. rewrite H0, IH.
    + cbn [rev]. rewrite <- app_assoc. reflexivity.
    + intros j Hj. apply (H (S j)). simpl. lia.
Qed.

End ParserMore.

(** X8.  The indices of the parsed cues are strictly increasing, so each
    identifies one cue; the index of a cue is the position, among the
    blocks after the header, of the block it was read from. *)
Theorem parseSubtitles_indices :
  forall seg : TVSegment.TVSegment,
    StronglySorted (fun a b => TVSegment.index a < TVSegment.index b)
                   (TVSegment.parseSubtitles seg) /\
    (forall c,
        In c (TVSegment.parseSubtitles seg) ->
        exists s block,
          TVSegment.subtitles seg = Some s /\
          get (sliceFrom (split s (nl ++ nl)) 1) (TVSegment.index c) = Some block /\
          TVSegment.parseBlock block (TVSegment.index c) = Some c).
Proof.
  intros seg. split; [|apply ParserMore.parseSubtitles_blocks].
  unfold TVSegment.parseSubtitles.
  destruct (TVSegment.subtitles seg) as [s|]; [|constructor].
  destruct s as [|x s']; [constructor|].
  apply (ParserMore.mapi_parse_indices (sliceFrom (split (x :: s') (nl ++ nl)) 1) 0).
Qed.

Lemma parseSubtitles_indices_witness :
  exists s block,
    Some rawWithNote = Some s /\
    get (sliceFrom (split s (nl ++ nl)) 1) 2 = Some block /\
    TVSegment.parseBlock block 2
    = Some {| TVSegment.index := 2;
              TVSegment.time := u "00:00:04.000 --> 00:00:08.000";
              TVSegment.text := u "Die Wahl" |}.
Proof.
  apply (proj2 (parseSubtitles_indices
                  {| TVSegment.subtitles := Some rawWithNote;
                     TVSegment.searchTokens := [];
                     TVSegment.showFullTranscript := false |})
               {| TVSegment.index := 2;
                  TVSegment.time := u "00:00:04.000 --> 00:00:08.000";
                  TVSegment.text := u "Die Wahl" |}).
  right. left. reflexivity.
Defined.



(** X10.  The first block is the header and is never a cue: a transcript
    without an empty line, whatever its lines are, gives no cue. *)
Theorem parseSubtitles_header_only :
  forall (seg : TVSegment.TVSegment) (s : str),
    TVSegment.subtitles seg = Some s ->
    includes s (nl ++ nl) = false ->
    TVSegment.parseSubtitles seg = [].
Proof.
  intros seg s Hs Hinc. unfold TVSegment.parseSubtitles. rewrite Hs.
  destruct s as [|x s']; [reflexivity|].
  assert (Hsplit : split (x :: s') (nl ++ nl) = [x :: s']).
  { apply (ParserMore.splitAux_no_separator (nl ++ nl) (x :: s') []).
    intros j Hj. unfold includes in Hinc. apply negb_false_iff, Z.eqb_eq in Hinc.
    destruct (indexOf_spec (x :: s') (nl ++ nl) 0) as [[_ Hnone] | (Hfrom & _)].
    - destruct (isPrefix (nl ++ nl) (skipn j (x :: s'))) eqn:E; [|reflexivity].
      exfalso. apply (Hnone (Z.of_nat j)).
      + pose proof (len_nonneg (x :: s')). lia.
      + apply occursAt_isPrefix. rewrite Nat2Z.id. split; [unfold len; lia | exact E].
    - pose proof (len_nonneg (x :: s')). lia. }
  rewrite Hsplit. reflexivity.
Qed.

Lemma parseSubtitles_header_only_witness :
  TVSegment.parseSubtitles
    {| TVSegment.subtitles :=
         Some (u "1" ++ nl ++ u "00:00:01.000 --> 00:00:04.000" ++ nl ++ u "Guten Abend");
       TVSegment.searchTokens := [];
       TVSegment.showFullTranscript := false |} = [].
Proof.
  apply (parseSubtitles_header_only _
           (u "1" ++ nl ++ u "00:00:01.000 --> 00:00:04.000" ++ nl ++ u "Guten Abend")).
  - reflexivity.
  - reflexivity.
Defined.

(** * More on the cue grouper *)

Module GrouperMore.

Import TVSegment GrouperFacts WindowFacts.

Lemma mapM_concat {A B : Type} (f : A -> option B) (gs : list (list A)) (ws : list (list B)) :
  Forall2 (fun g w => mapM f g = Some w) gs ws ->
  mapM f (concat gs) = Some (concat ws).
Proof.
  induction 1 as [|g w gs ws Hg _ IH]; [reflexivity|]. cbn [concat].
  revert w Hg. induction g as [|x g IHg]; intros w Hg; cbn [mapM app] in *.
  - injection Hg as <-. exact IH.
  - destruct (f x) as [y|]; cbn [bind] in *; [|discriminate].
    destruct (mapM f g) as [ys|]; cbn [bind] in *; [|discriminate].
    injection Hg as <-. rewrite (IHg ys eq_refl). reflexivity.
Qed.

Lemma mapM_length {A B : Type} (f : A -> option B) (l : list A) :
  forall r, mapM f l = Some r -> length r = length l.
Proof.
  induction l as [|x t IH]; intros r H; cbn [mapM] in H.
  - injection H as <-. reflexivity.
  - destruct (f x); cbn [bind] in H; [|discriminate].
    destruct (mapM f t) as [ys|]; cbn [bind] in H; [|discriminate].
    injection H as <-. simpl. f_equal. apply IH. reflexivity.
Qed.

Lemma get_app_here {A : Type} (pre : list A) (x : A) (r : list A) :
  get (pre ++ x :: r) (len pre) = Some x.
Proof.
  apply get_Some. split; [apply len_nonneg|].
  unfold len. rewrite Nat2Z.id. rewrite nth_error_app2 by lia.
  rewrite Nat.sub_diag. reflexivity.
Qed.

Section Matches.

Variable toLowerCase : str -> str.
Variable tokens : list SearchToken.

(** The cues at the matching positions are the matching cues. *)
Lemma mapM_get_matching (subs : list ParsedSubtitle) :
  forall pre,
    mapM (get (pre ++ subs)) (matchingFrom toLowerCase tokens (len pre) subs)
    = Some (filter (tokenMatches toLowerCase tokens) subs).
Proof.
  induction subs as [|s r IH]; intros pre; cbn [matchingFrom filter]; [reflexivity|].
  specialize (IH (pre ++ [s])). rewrite <- app_assoc, len_app in IH.
  change (len [s]) with 1 in IH. cbn [app] in IH.
  destruct (tokenMatches toLowerCase tokens s); [|exact IH].
  cbn [mapM]. rewrite get_app_here, IH. reflexivity.
Qed.

(** In snippet mode with a token the method maps [createChunk] over the
    groups of the matching positions. *)
Lemma snippet_mapM (subs : list ParsedSubtitle) :
  tokens <> [] ->
  matchingSubtitlesOf toLowerCase subs false tokens
  = mapM (fun g => createChunk subs g contextSize)
         (groupsOf (matchingFrom toLowerCase tokens 0 subs)).
Proof.
  intros Hne. unfold matchingSubtitlesOf.
  destruct tokens as [|t ts] eqn:Et; [contradiction|]. rewrite <- Et.
  rewrite (collectMatching_matchingFrom toLowerCase tokens subs 0 []) by constructor.
  cbn [app]. set (M := matchingFrom toLowerCase tokens 0 subs).
  pose proof (matchingFrom_bounds toLowerCase tokens subs 0) as Hb.
  pose proof (matchingFrom_sorted toLowerCase tokens subs 0) as Hs.
  fold M in Hb, Hs.
  rewrite (sort_of_sorted (fun x : Z => x)) by exact Hs.
  rewrite groupChunks_groups.
  - destruct M; reflexivity.
  - eapply Forall_impl; [|exact Hb]. cbv beta. intros; lia.
Qed.

Lemma snippet_matches (subs : list ParsedSubtitle) (windows : list SubtitleChunk) :
  tokens <> [] ->
  matchingSubtitlesOf toLowerCase subs false tokens = Some windows ->
  concat (map matches windows) = filter (tokenMatches toLowerCase tokens) subs.
Proof.
  intros Hne H.
  destruct (snippet_windows toLowerCase subs tokens Hne) as (ws & E & HF).
  rewrite E in H. injection H as ->.
  assert (Hm : Forall2 (fun g w => mapM (get subs) g = Some w)
                       (groupsOf (matchingFrom toLowerCase tokens 0 subs))
                       (map matches windows)).
  { clear E. induction HF as [|g w gs ws' Hw _ IH]; cbn [map]; constructor; [|exact IH].
    destruct Hw as (f & l & _ & _ & Hms & _). exact Hms. }
  apply mapM_concat in Hm. rewrite groupsOf_concat in Hm.
  pose proof (mapM_get_matching subs []) as Hf. cbn [app] in Hf.
  change (len (@nil ParsedSubtitle)) with 0 in Hf. congruence.
Qed.

Lemma snippet_matches_nonempty (subs : list ParsedSubtitle) (windows : list SubtitleChunk) :
  tokens <> [] ->
  matchingSubtitlesOf toLowerCase subs false tokens = Some windows ->
  Forall (fun w => matches w <> []) windows.
Proof.
  intros Hne H.
  destruct (snippet_windows toLowerCase subs tokens Hne) as (ws & E & HF).
  rewrite E in H. injection H as ->. clear E.
  induction HF as [|g w gs ws' Hw _ IH]; constructor; [|exact IH].
  destruct Hw as (f & l & Hf & _ & Hms & _).
  apply mapM_length in Hms. intros Hnil. rewrite Hnil in Hms.
  destruct g; [discriminate | simpl in Hms; lia].
Qed.

End Matches.

End GrouperMore.

(** X11.  In snippet mode every matching cue is a match of exactly one
    window: the matches of the windows, one window after the other, are
    the cues that contain a token, in the order of the transcript.  They
    are the matches that full-transcript mode reports. *)
Theorem snippet_matches_partition :
  forall (toLowerCase : str -> str) (subs : list TVSegment.ParsedSubtitle)
         (tokens : list SearchToken) (windows : list TVSegment.SubtitleChunk),
    tokens <> [] ->
    TVSegment.matchingSubtitlesOf toLowerCase subs false tokens = Some windows ->
    concat (map TVSegment.matches windows)
    = filter (TVSegment.tokenMatches toLowerCase tokens) subs /\
    TVSegment.matchingSubtitlesOf toLowerCase subs true tokens
    = Some [ {| TVSegment.matches := concat (map TVSegment.matches windows);
                TVSegment.context := subs |} ].
Proof.
  intros toLowerCase subs tokens windows Hne H.
  pose proof (GrouperMore.snippet_matches toLowerCase tokens subs windows Hne H) as Hm.
  split; [exact Hm|]. rewrite Hm. unfold TVSegment.matchingSubtitlesOf.
  destruct tokens; [contradiction | reflexivity].
Qed.

Lemma snippet_matches_partition_witness :
  concat (map TVSegment.matches
            [ {| TVSegment.matches := [cueAt [10; 30] 10];
                 TVSegment.context :=
                   map (cueAt [10; 30]) [5; 6; 7; 8; 9; 11; 12; 13; 14; 15] |};
              {| TVSegment.matches := [cueAt [10; 30] 30];
                 TVSegment.context :=
                   map (cueAt [10; 30]) [25; 26; 27; 28; 29; 31; 32; 33; 34; 35] |} ])
  = filter (TVSegment.tokenMatches String_toLowerCase [wahl]) (cuesUpTo 40 [10; 30]).
Proof.
  apply (snippet_matches_partition String_toLowerCase (cuesUpTo 40 [10; 30]) [wahl]).
  - discriminate.
  - vm_compute. reflexivity.
Defined.

(** X12.  In snippet mode every window has at least one match, and there
    is no window when, and only when, no cue contains a token. *)
Theorem snippet_windows_nonempty :
  forall (toLowerCase : str -> str) (subs : list TVSegment.ParsedSubtitle)
         (tokens : list SearchToken) (windows : list TVSegment.SubtitleChunk),
    tokens <> [] ->
    TVSegment.matchingSubtitlesOf toLowerCase subs false tokens = Some windows ->
    Forall (fun w => TVSegment.matches w <> []) windows /\
    (windows = [] <-> filter (TVSegment.tokenMatches toLowerCase tokens) subs = []).
Proof.
  intros toLowerCase subs tokens windows Hne H.
  pose proof (GrouperMore.snippet_matches toLowerCase tokens subs windows Hne H) as Hm.
  pose proof (GrouperMore.snippet_matches_nonempty toLowerCase tokens subs windows Hne H) as Hn.
  split; [exact Hn|]. rewrite <- Hm. split.
  - intros ->. reflexivity.
  - intros Hc. destruct windows as [|w ws]; [reflexivity|].
    inversion Hn as [|? ? Hw _]; subst. cbn [map concat] in Hc.
    apply app_eq_nil in Hc as [Hc _]. contradiction.
Qed.

Lemma snippet_windows_nonempty_witness :
  TVSegment.matchingSubtitlesOf String_toLowerCase (cuesUpTo 20 []) false [wahl] = Some [] /\
  filter (TVSegment.tokenMatches String_toLowerCase [wahl]) (cuesUpTo 20 []) = [].
Proof.
  split; [vm_compute; reflexivity|].
  apply (snippet_windows_nonempty String_toLowerCase (cuesUpTo 20 []) [wahl] []).
  - discriminate.
  - vm_compute. reflexivity.
  - reflexivity.
Defined.

(** * Windows and the transcript *)

Module WindowMore.

Import TVSegment GrouperFacts WindowFacts GrouperMore.

Lemma sorted_app (l1 l2 : list Z) :
  StronglySorted Z.lt (l1 ++ l2) ->
  StronglySorted Z.lt l1 /\ StronglySorted Z.lt l2 /\
  forall x y, In x l1 -> In y l2 -> x < y.
Proof.
  induction l1 as [|a l1 IH]; cbn [app]; intros H.
  - split; [constructor|]. split; [exact H|]. intros x y [].
  - inversion H as [|? ? Hs Ha]; subst. destruct (IH Hs) as (H1 & H2 & H12).
    rewrite Forall_app in Ha. destruct Ha as [Ha1 Ha2].
    split; [constructor; assumption|]. split; [exact H2|].
    intros x y [<- | Hx] Hy.
    + rewrite Forall_forall in Ha2. apply Ha2, Hy.
    + apply H12; assumption.
Qed.

Lemma sorted_last (g : list Z) :
  StronglySorted Z.lt g ->
  forall l, lastOf g = Some l -> Forall (fun p => p <= l) g.
Proof.
  induction 1 as [|x r Hs IH Hx]; intros l Hl; [constructor|].
  destruct r as [|y r'].
  - injection Hl as <-. constructor; [lia | constructor].
  - unfold lastOf in Hl. rewrite last_cons in Hl.
    specialize (IH l Hl). constructor; [|exact IH].
    inversion Hx as [|? ? Hxy _]; subst. inversion IH; subst. lia.
Qed.

Lemma sorted_bounds (g : list Z) (f l p : Z) :
  StronglySorted Z.lt g -> hd_error g = Some f -> lastOf g = Some l ->
  In p g -> f <= p <= l.
Proof.
  intros Hs Hf Hl Hp. split.
  - destruct g as [|x r]; [discriminate|]. injection Hf as ->.
    destruct Hp as [-> | Hp]; [lia|].
    inversion Hs as [|? ? _ Hx]; subst. rewrite Forall_forall in Hx.
    specialize (Hx p Hp). lia.
  - pose proof (sorted_last g Hs l Hl) as H. rewrite Forall_forall in H. apply H, Hp.
Qed.

Lemma linked_app_r (a b : list (list Z)) : linked (a ++ b) -> linked b.
Proof.
  induction a as [|g a IH]; cbn [app]; [auto|].
  intros (_ & _ & _ & H). apply IH, H.
Qed.

(** Between the last index of a group and the first index of a later
    group there are more than [2 * contextSize] positions. *)
Lemma groups_gap (b : list (list Z)) :
  forall gi gj c li fj,
    linked (gi :: b ++ gj :: c) ->
    StronglySorted Z.lt (concat (gi :: b ++ gj :: c)) ->
    lastOf gi = Some li -> hd_error gj = Some fj ->
    li + contextSize * 2 < fj.
Proof.
  induction b as [|g1 b IH]; intros gi gj c li fj Hl Hs Hli Hfj; cbn [app] in *.
  - destruct Hl as (_ & _ & Hgap & _). apply Hgap; assumption.
  - destruct Hl as (_ & _ & Hgap & Hl1).
    cbn [concat] in Hs. apply sorted_app in Hs as (_ & Hs1 & _).
    pose proof Hl1 as (Hne1 & _).
    destruct (hd_error g1) as [f1|] eqn:Ef1; [|destruct g1; [contradiction | discriminate]].
    destruct (lastOf g1) as [l1|] eqn:El1; [|destruct g1; [contradiction | discriminate]].
    specialize (Hgap li f1 Hli eq_refl).
    specialize (IH g1 gj c l1 fj Hl1 Hs1 El1 Hfj).
    pose proof Hs1 as Hs1'. cbn [concat] in Hs1'. apply sorted_app in Hs1' as (Hg1 & _).
    assert (In l1 g1) by (apply lastOf_In, El1).
    pose proof (sorted_bounds g1 f1 l1 l1 Hg1 Ef1 El1 H). unfold contextSize in *. lia.
Qed.

Lemma get_injective {A : Type} (l : list A) (p q : Z) (x : A) :
  NoDup l -> get l p = Some x -> get l q = Some x -> p = q.
Proof.
  intros Hnd Hp Hq.
  pose proof (get_bounds _ _ _ Hp) as Hpb. pose proof (get_bounds _ _ _ Hq) as Hqb.
  apply get_Some in Hp as [_ Hp]. apply get_Some in Hq as [_ Hq].
  rewrite NoDup_nth_error in Hnd.
  assert (Z.to_nat p = Z.to_nat q).
  { apply Hnd; [unfold len in *; lia | congruence]. }
  lia.
Qed.

(** Every cue of a window sits at a position between [firstMatch -
    contextSize] and [lastMatch + contextSize]. *)
Lemma window_positions (subs : list ParsedSubtitle) (g : list Z) (w : SubtitleChunk)
    (sub : ParsedSubtitle) :
  windowOf subs g w -> StronglySorted Z.lt g ->
  In sub (matches w ++ context w) ->
  exists f l p,
    hd_error g = Some f /\ lastOf g = Some l /\
    f - contextSize <= p <= l + contextSize /\ get subs p = Some sub.
Proof.
  intros (f & l & Hf & Hl & Hms & Hctx & _) Hs Hin.
  exists f, l. apply in_app_or in Hin as [Hin | Hin].
  - destruct (mapM_get_In _ _ _ _ Hms Hin) as (p & Hp & Hget).
    exists p. pose proof (sorted_bounds g f l p Hs Hf Hl Hp).
    unfold contextSize. repeat split; try assumption; lia.
  - destruct (Hctx sub Hin) as (p & Hp & Hget & _).
    exists p. repeat split; try assumption; lia.
Qed.

End WindowMore.

(** X13.  When the cues of the transcript are pairwise different, as the
    cues of a parsed transcript are, no cue is shown in two windows: a
    cue that is a match or a context cue of one window is neither in a
    later window. *)
Theorem snippet_windows_share_no_cue :
  forall (toLowerCase : str -> str) (subs : list TVSegment.ParsedSubtitle)
         (tokens : list SearchToken)
         (pre mid post : list TVSegment.SubtitleChunk)
         (wi wj : TVSegment.SubtitleChunk) (sub : TVSegment.ParsedSubtitle),
    tokens <> [] -> NoDup subs ->
    TVSegment.matchingSubtitlesOf toLowerCase subs false tokens
    = Some (pre ++ wi :: mid ++ wj :: post) ->
    In sub (TVSegment.matches wi ++ TVSegment.context wi) ->
    ~ In sub (TVSegment.matches wj ++ TVSegment.context wj).
Proof.
  intros toLowerCase subs tokens pre mid post wi wj sub Hne Hnd H Hi Hj.
  destruct (WindowFacts.snippet_windows toLowerCase subs tokens Hne) as (ws & E & HF).
  rewrite E in H. injection H as ->.
  pose proof (WindowFacts.groupsOf_linked (matchingFrom toLowerCase tokens 0 subs)) as Hl.
  pose proof (GrouperFacts.matchingFrom_increasing toLowerCase tokens subs 0) as Hs.
  rewrite <- (WindowFacts.groupsOf_concat (matchingFrom toLowerCase tokens 0 subs)) in Hs.
  set (gs := groupsOf (matchingFrom toLowerCase tokens 0 subs)) in *. clearbody gs.
  apply Forall2_app_inv_r in HF as (a & gs2 & _ & HF & ->).
  inversion HF as [|gi ? gs3 ? Hwi HF3]; subst.
  apply Forall2_app_inv_r in HF3 as (b & gs4 & _ & HF4 & ->).
  inversion HF4 as [|gj ? c ? Hwj _]; subst.
  apply WindowMore.linked_app_r in Hl.
  rewrite concat_app in Hs. apply WindowMore.sorted_app in Hs as (_ & Hs & _).
  assert (Hgi : StronglySorted Z.lt gi).
  { cbn [concat] in Hs. apply WindowMore.sorted_app in Hs as (Hgi & _). exact Hgi. }
  assert (Hgj : StronglySorted Z.lt gj).
  { cbn [concat] in Hs. apply WindowMore.sorted_app in Hs as (_ & Hs' & _).
    rewrite concat_app in Hs'. apply WindowMore.sorted_app in Hs' as (_ & Hs' & _).
    cbn [concat] in Hs'. apply WindowMore.sorted_app in Hs' as (Hgj & _). exact Hgj. }
  destruct (WindowMore.window_positions subs gi wi sub Hwi Hgi Hi)
    as (fi & li & p & Hfi & Hli & Hp & Hgp).
  destruct (WindowMore.window_positions subs gj wj sub Hwj Hgj Hj)
    as (fj & lj & q & Hfj & Hlj & Hq & Hgq).
  pose proof (WindowMore.groups_gap b gi gj c li fj Hl Hs Hli Hfj) as Hgap.
  pose proof (WindowMore.get_injective subs p q sub Hnd Hgp Hgq).
  unfold TVSegment.contextSize in *. lia.
Qed.

Lemma snippet_windows_share_no_cue_witness :
  In (cueAt [10; 30] 12)
     (map (cueAt [10; 30]) [10; 5; 6; 7; 8; 9; 11; 12; 13; 14; 15]) /\
  ~ In (cueAt [10; 30] 12)
       (map (cueAt [10; 30]) [30; 25; 26; 27; 28; 29; 31; 32; 33; 34; 35]).
Proof.
  assert (Hin : In (cueAt [10; 30] 12)
                   (map (cueAt [10; 30]) [10; 5; 6; 7; 8; 9; 11; 12; 13; 14; 15]))
    by (vm_compute; intuition).
  split; [exact Hin|].
  apply (snippet_windows_share_no_cue String_toLowerCase (cuesUpTo 40 [10; 30]) [wahl]
           [] [] []
           {| TVSegment.matches := [cueAt [10; 30] 10];
              TVSegment.context :=
                map (cueAt [10; 30]) [5; 6; 7; 8; 9; 11; 12; 13; 14; 15] |}
           {| TVSegment.matches := [cueAt [10; 30] 30];
              TVSegment.context :=
                map (cueAt [10; 30]) [25; 26; 27; 28; 29; 31; 32; 33; 34; 35] |}).
  - discriminate.
  - apply (NoDup_map_inv TVSegment.index). vm_compute.
    repeat (constructor; [simpl; intuition discriminate|]). constructor.
  - vm_compute. reflexivity.
  - exact Hin.
Defined.

(** * What [renderSubtitles] shows *)

Module RenderFacts.

Import TVSegment GrouperFacts WindowFacts GrouperMore WindowMore.

Lemma NoDup_map_injective {A B : Type} (f : A -> B) (l : list A) (a b : A) :
  NoDup (map f l) -> In a l -> In b l -> f a = f b -> a = b.
Proof.
  induction l as [|x l IH]; intros Hnd Ha Hb E; [destruct Ha|].
  cbn [map] in Hnd. inversion Hnd as [|? ? Hx Hl]; subst.
  destruct Ha as [-> | Ha], Hb as [-> | Hb]; try reflexivity.
  - destruct Hx. rewrite E. apply in_map, Hb.
  - destruct Hx. rewrite <- E. apply in_map, Ha.
  - apply IH; assumption.
Qed.

Lemma sorted_split {A : Type} (R : A -> A -> Prop) (l1 l2 : list A) :
  StronglySorted R (l1 ++ l2) -> StronglySorted R l1 /\ StronglySorted R l2.
Proof.
  induction l1 as [|a l1 IH]; cbn [app]; intros H; [split; [constructor | exact H]|].
  inversion H as [|? ? Hs Ha]; subst. destruct (IH Hs) as [H1 H2].
  split; [|exact H2]. constructor; [exact H1|].
  rewrite Forall_app in Ha. apply Ha.
Qed.

Lemma sorted_slice {A : Type} (R : A -> A -> Prop) (l : list A) (a b : Z) :
  StronglySorted R l -> StronglySorted R (slice l a b).
Proof.
  intros H. unfold slice.
  set (from := Z.to_nat (relIndex (len l) a)).
  set (n := Z.to_nat (relIndex (len l) b - relIndex (len l) a)).
  rewrite <- (firstn_skipn from l) in H. apply sorted_split in H as [_ H].
  rewrite <- (firstn_skipn n (skipn from l)) in H. apply sorted_split in H as [H _].
  exact H.
Qed.

Lemma denseFrom_increasing (subs : list ParsedSubtitle) :
  forall k,
    denseFrom k subs ->
    StronglySorted (fun a b => index a < index b) subs /\
    Forall (fun c => k <= index c) subs.
Proof.
  induction subs as [|s r IH]; intros k H; [split; constructor|].
  destruct H as [Hs Hr]. destruct (IH _ Hr) as [H1 H2].
  assert (Forall (fun c => k < index c) r)
    by (eapply Forall_impl; [|exact H2]; cbv beta; intros; lia).
  split.
  - constructor; [exact H1|]. eapply Forall_impl; [|exact H]. cbv beta. intros; lia.
  - constructor; [lia|]. eapply Forall_impl; [|exact H]. cbv beta. intros; lia.
Qed.

Lemma increasing_NoDup (l : list ParsedSubtitle) :
  StronglySorted (fun a b => index a < index b) l -> NoDup l.
Proof.
  induction 1 as [|x r _ IH Hx]; constructor; [|exact IH].
  intros Hin. rewrite Forall_forall in Hx. specialize (Hx x Hin). lia.
Qed.

(** A list sorted by index that is a permutation of a list with strictly
    increasing indices is that list. *)
Lemma sorted_perm_unique (l1 : list ParsedSubtitle) :
  forall l2,
    StronglySorted (fun a b => index a <= index b) l1 ->
    StronglySorted (fun a b => index a < index b) l2 ->
    Permutation l1 l2 -> l1 = l2.
Proof.
  induction l1 as [|a r1 IH]; intros l2 H1 H2 Hp.
  - apply Permutation_nil in Hp. subst. reflexivity.
  - destruct l2 as [|b r2]; [apply Permutation_sym, Permutation_nil in Hp; discriminate|].
    inversion H1 as [|? ? Hs1 Ha]; subst. inversion H2 as [|? ? Hs2 Hb]; subst.
    rewrite Forall_forall in Ha, Hb.
    assert (Hab : a = b).
    { assert (Ha2 : In a (b :: r2)) by (apply (Permutation_in _ Hp); left; reflexivity).
      assert (Hb1 : In b (a :: r1))
        by (apply (Permutation_in _ (Permutation_sym Hp)); left; reflexivity).
      destruct Ha2 as [-> | Ha2]; [reflexivity|].
      destruct Hb1 as [-> | Hb1]; [reflexivity|].
      specialize (Ha b Hb1). specialize (Hb a Ha2). lia. }
    subst b. f_equal. apply IH; try assumption.
    apply (Permutation_cons_inv Hp).
Qed.

Lemma mapM_get_NoDup {A : Type} (l : list A) (g : list Z) :
  forall ms, NoDup l -> NoDup g -> mapM (get l) g = Some ms -> NoDup ms.
Proof.
  induction g as [|p g IH]; intros ms Hl Hg H; cbn [mapM] in H.
  - injection H as <-. constructor.
  - destruct (get l p) as [x|] eqn:Ex; cbn [bind] in H; [|discriminate].
    destruct (mapM (get l) g) as [ys|] eqn:Ey; cbn [bind] in H; [|discriminate].
    injection H as <-. inversion Hg as [|? ? Hp Hg']; subst.
    constructor; [|apply IH; auto].
    intros Hin. destruct (mapM_get_In _ _ _ _ Ey Hin) as (q & Hq & Hgq).
    rewrite (get_injective l p q x Hl Ex Hgq) in Hp. contradiction.
Qed.

Lemma mapM_In {A B : Type} (f : A -> option B) (l : list A) :
  forall r x y, mapM f l = Some r -> In x l -> f x = Some y -> In y r.
Proof.
  induction l as [|a t IH]; intros r x y H Hx Hy; [destruct Hx|].
  cbn [mapM] in H.
  destruct (f a) as [b|] eqn:Ea; cbn [bind] in H; [|discriminate].
  destruct (mapM f t) as [ys|] eqn:Et; cbn [bind] in H; [|discriminate].
  injection H as <-. destruct Hx as [-> | Hx].
  - left. congruence.
  - right. eapply IH; eauto.
Qed.

Lemma mapM_hd {A B : Type} (f : A -> option B) (l : list A) (r : list B) (x : A) :
  mapM f l = Some r -> hd_error l = Some x ->
  exists y, f x = Some y /\ hd_error r = Some y.
Proof.
  destruct l as [|a t]; [discriminate|]. cbn [mapM hd_error]. intros H Hx.
  injection Hx as ->.
  destruct (f x) as [b|]; cbn [bind] in H; [|discriminate].
  destruct (mapM f t) as [ys|]; cbn [bind] in H; [|discriminate].
  injection H as <-. eauto.
Qed.

Lemma mapM_snoc {A B : Type} (f : A -> option B) (l : list A) (x : A) :
  forall r,
    mapM f (l ++ [x]) = Some r ->
    exists r' y, r = r' ++ [y] /\ f x = Some y.
Proof.
  induction l as [|a t IH]; intros r H; cbn [app mapM] in H.
  - destruct (f x) as [y|]; cbn [bind] in H; [|discriminate].
    injection H as <-. exists [], y. auto.
  - destruct (f a) as [b|]; cbn [bind] in H; [|discriminate].
    destruct (mapM f (t ++ [x])) as [ys|] eqn:E; cbn [bind] in H; [|discriminate].
    injection H as <-. destruct (IH ys eq_refl) as (r' & y & -> & Hy).
    exists (b :: r'), y. auto.
Qed.

Lemma mapM_last {A B : Type} (f : A -> option B) (l : list A) (r : list B) (x : A) :
  mapM f l = Some r -> lastOf l = Some x ->
  exists y, f x = Some y /\ lastOf r = Some y.
Proof.
  intros H Hx. destruct l as [|a t]; [discriminate|].
  destruct (exists_last (l := a :: t) ltac:(discriminate)) as (t' & z & E).
  rewrite E in H, Hx. rewrite lastOf_snoc in Hx. injection Hx as ->.
  destruct (mapM_snoc f t' x r H) as (r' & y & -> & Hy).
  exists y. split; [exact Hy | apply lastOf_snoc].
Qed.

(** The cues of a window, sorted by index, are the cues of the range of
    the window, when the cues carry their positions as indices. *)
Lemma createChunk_snippetCues (subs : list ParsedSubtitle) (g : list Z) (w : SubtitleChunk) :
  dense subs -> g <> [] -> StronglySorted Z.lt g ->
  Forall (fun p => 0 <= p < len subs) g ->
  createChunk subs g contextSize = Some w ->
  exists firstCue lastCue,
    hd_error (matches w) = Some firstCue /\ lastOf (matches w) = Some lastCue /\
    snippetCues w
    = slice subs (Z.max 0 (index firstCue - contextSize))
                 (Z.min (len subs - 1) (index lastCue + contextSize) + 1).
Proof.
  intros Hd Hne Hsg Hvalid Hc.
  destruct (createChunk_window subs g Hne Hvalid) as (w' & Hc' & Hwin).
  rewrite Hc in Hc'. injection Hc' as <-.
  destruct Hwin as (f & l & Hf & Hl & Hms & Hctx & Hdense).
  specialize (Hdense Hd).
  destruct (mapM_hd _ _ _ _ Hms Hf) as (fc & Hfc & Hhd).
  destruct (mapM_last _ _ _ _ Hms Hl) as (lc & Hlc & Hlast).
  exists fc, lc. split; [exact Hhd|]. split; [exact Hlast|].
  rewrite (dense_get subs f fc Hd Hfc), (dense_get subs l lc Hd Hlc).
  set (lo := Z.max 0 (f - contextSize)) in *.
  set (hi := Z.min (len subs - 1) (l + contextSize)) in *.
  destruct (denseFrom_increasing subs 0 Hd) as [Hinc _].
  pose proof (increasing_NoDup subs Hinc) as Hnd.
  assert (Hl_valid : 0 <= l < len subs).
  { rewrite Forall_forall in Hvalid. apply Hvalid, lastOf_In, Hl. }
  assert (Hf_valid : 0 <= f < len subs).
  { rewrite Forall_forall in Hvalid. apply Hvalid. destruct g; [discriminate|].
    injection Hf as ->. left; reflexivity. }
  assert (Hrange : forall p, In p g -> lo <= p <= hi).
  { intros p Hp. pose proof (sorted_bounds g f l p Hsg Hf Hl Hp).
    rewrite Forall_forall in Hvalid. specialize (Hvalid p Hp).
    unfold lo, hi, contextSize. lia. }
  assert (Helem : forall x, In x (context w ++ matches w) <-> In x (slice subs lo (hi + 1))).
  { intros x. rewrite in_app_iff, slice_In by (unfold lo, hi, contextSize; lia). split.
    - intros [Hx | Hx].
      + destruct (Hctx x Hx) as (p & Hp & Hget & _). exists p. split; [lia | exact Hget].
      + destruct (mapM_get_In _ _ _ _ Hms Hx) as (p & Hp & Hget).
        exists p. split; [specialize (Hrange p Hp); lia | exact Hget].
    - intros (p & Hp & Hget).
      destruct (in_dec Z.eq_dec p g) as [Hin | Hout].
      + right. eapply mapM_In; eauto.
      + left. apply (Hdense p x); [lia | exact Hget | exact Hout]. }
  assert (Hnd_w : NoDup (context w ++ matches w)).
  { apply NoDup_app.
    - unfold createChunk in Hc.
      destruct (get g 0); cbn [bind] in Hc; [|discriminate].
      destruct (get g (len g - 1)); cbn [bind] in Hc; [|discriminate].
      destruct (mapM (get subs) g); cbn [bind] in Hc; [|discriminate].
      injection Hc as <-. cbn [context]. apply NoDup_filter.
      apply increasing_NoDup, sorted_slice, Hinc.
    - apply (mapM_get_NoDup subs g); [exact Hnd | | exact Hms].
      clear - Hsg. induction Hsg as [|x r _ IH Hx]; constructor; [|exact IH].
      intros Hin. rewrite Forall_forall in Hx. specialize (Hx x Hin). lia.
    - intros x Hx Hm. destruct (Hctx x Hx) as (_ & _ & _ & Hn).
      destruct (mapM_get_In _ _ _ _ Hms Hm) as (p & Hp & Hget).
      rewrite (dense_get subs p x Hd Hget) in Hn. contradiction. }
  unfold snippetCues. apply sorted_perm_unique.
  - apply (sort_sorted index).
  - apply sorted_slice, Hinc.
  - eapply Permutation_trans; [apply Permutation_sym, (sort_perm index)|].
    apply NoDup_Permutation; [exact Hnd_w | | exact Helem].
    apply increasing_NoDup, sorted_slice, Hinc.
Qed.

End RenderFacts.

(** X14.  When the cues carry their positions as indices, a window is
    shown in snippet mode as a run of consecutive cues of the transcript,
    each once: the cues from [contextSize] before its first match to
    [contextSize] after its last match, cut at the ends of the
    transcript. *)
Theorem snippet_cues_contiguous :
  forall (toLowerCase : str -> str) (subs : list TVSegment.ParsedSubtitle)
         (tokens : list SearchToken) (windows : list TVSegment.SubtitleChunk),
    tokens <> [] -> dense subs ->
    TVSegment.matchingSubtitlesOf toLowerCase subs false tokens = Some windows ->
    Forall (fun w =>
              exists firstCue lastCue,
                hd_error (TVSegment.matches w) = Some firstCue /\
                lastOf (TVSegment.matches w) = Some lastCue /\
                TVSegment.snippetCues w
                = slice subs
                    (Z.max 0 (TVSegment.index firstCue - TVSegment.contextSize))
                    (Z.min (len subs - 1)
                           (TVSegment.index lastCue + TVSegment.contextSize) + 1))
           windows.
Proof.
  intros toLowerCase subs tokens windows Hne Hd H.
  rewrite (GrouperMore.snippet_mapM toLowerCase tokens subs Hne) in H.
  apply GrouperFacts.mapM_Forall2 in H.
  pose proof (WindowFacts.groupsOf_linked (matchingFrom toLowerCase tokens 0 subs)) as Hl.
  pose proof (GrouperFacts.matchingFrom_increasing toLowerCase tokens subs 0) as Hs.
  pose proof (GrouperFacts.matchingFrom_bounds toLowerCase tokens subs 0) as Hb.
  rewrite <- (WindowFacts.groupsOf_concat (matchingFrom toLowerCase tokens 0 subs)) in Hs, Hb.
  set (gs := groupsOf (matchingFrom toLowerCase tokens 0 subs)) in *. clearbody gs.
  induction H as [|g w gs ws Hc _ IH]; [constructor|].
  cbn [concat] in Hs, Hb. apply WindowMore.sorted_app in Hs as (Hg & Hs & _).
  apply Forall_app in Hb as [Hbg Hb]. destruct Hl as (Hne_g & _ & _ & Hl).
  constructor; [|apply IH; assumption].
  apply (RenderFacts.createChunk_snippetCues subs g w Hd Hne_g Hg); [|exact Hc].
  eapply Forall_impl; [|exact Hbg]. cbv beta. intros; lia.
Qed.

Lemma snippet_cues_contiguous_witness :
  Forall (fun w =>
            exists firstCue lastCue,
              hd_error (TVSegment.matches w) = Some firstCue /\
              lastOf (TVSegment.matches w) = Some lastCue /\
              TVSegment.snippetCues w
              = slice (cuesUpTo 20 [10])
                  (Z.max 0 (TVSegment.index firstCue - TVSegment.contextSize))
                  (Z.min (len (cuesUpTo 20 [10]) - 1)
                         (TVSegment.index lastCue + TVSegment.contextSize) + 1))
         [ {| TVSegment.matches := [cueAt [10] 10];
              TVSegment.context :=
                map (cueAt [10]) [5; 6; 7; 8; 9; 11; 12; 13; 14; 15] |} ].
Proof.
  apply (snippet_cues_contiguous String_toLowerCase (cuesUpTo 20 [10]) [wahl]).
  - discriminate.
  - vm_compute. repeat split.
  - vm_compute. reflexivity.
Defined.

(** X15.  In full-transcript mode, when the indices of the cues are
    pairwise different, as those of a parsed transcript are, the cues
    shown as matches are exactly the cues that contain a token, and
    every cue of the transcript is shown once, in order. *)
Theorem full_transcript_flags :
  forall (toLowerCase : str -> str) (subs : list TVSegment.ParsedSubtitle)
         (tokens : list SearchToken),
    NoDup (map TVSegment.index subs) ->
    exists w,
      TVSegment.matchingSubtitlesOf toLowerCase subs true tokens = Some [w] /\
      TVSegment.fullTranscriptItems w
      = map (fun sub => (sub, TVSegment.tokenMatches toLowerCase tokens sub)) subs.
Proof.
  intros toLowerCase subs tokens Hnd. unfold TVSegment.matchingSubtitlesOf.
  eexists. split; [reflexivity|].
  unfold TVSegment.fullTranscriptItems. cbn [TVSegment.matches TVSegment.context].
  apply map_ext_in. intros sub Hsub. f_equal.
  destruct tokens as [|t ts]; [reflexivity|].
  destruct (TVSegment.tokenMatches toLowerCase (t :: ts) sub) eqn:E.
  - apply existsb_exists. exists sub. split; [|apply Z.eqb_refl].
    apply filter_In. auto.
  - destruct (existsb _ _) eqn:Ex; [|reflexivity].
    apply existsb_exists in Ex as (m & Hm & Hidx).
    apply filter_In in Hm as [Hm Htm]. apply Z.eqb_eq in Hidx.
    rewrite (RenderFacts.NoDup_map_injective TVSegment.index subs m sub Hnd Hm Hsub Hidx)
      in Htm. congruence.
Qed.

Lemma full_transcript_flags_witness :
  exists w,
    TVSegment.matchingSubtitlesOf String_toLowerCase (cuesUpTo 3 [2]) true [wahl]
    = Some [w] /\
    TVSegment.fullTranscriptItems w
    = map (fun sub => (sub, TVSegment.tokenMatches String_toLowerCase [wahl] sub))
          (cuesUpTo 3 [2]).
Proof.
  apply (full_transcript_flags String_toLowerCase (cuesUpTo 3 [2]) [wahl]).
  vm_compute. repeat (constructor; [simpl; intuition discriminate|]). constructor.
Defined.

(** * More on the page *)

Module PageMore.

Import MainPage.

Lemma strSetHas_In (s : list str) (x : str) : strSetHas s x = true <-> In x s.
Proof.
  unfold strSetHas. rewrite existsb_exists. split.
  - intros (y & Hy & E). apply str_eqb_eq in E. subst. exact Hy.
  - intros H. exists x. split; [exact H | apply str_eqb_eq; reflexivity].
Qed.

Lemma strSetHas_false (s : list str) (x : str) : strSetHas s x = false <-> ~ In x s.
Proof.
  rewrite <- strSetHas_In. destruct (strSetHas s x); split; congruence.
Qed.

Lemma strSetAdd_In (s : list str) (x y : str) :
  In y (strSetAdd s x) <-> In y s \/ y = x.
Proof.
  unfold strSetAdd. destruct (strSetHas s x) eqn:E.
  - apply strSetHas_In in E. split; [auto|]. intros [H | ->]; assumption.
  - rewrite in_app_iff. simpl. intuition.
Qed.

Lemma strSetDelete_In (s : list str) (x y : str) :
  In y (strSetDelete s x) <-> In y s /\ y <> x.
Proof.
  unfold strSetDelete. rewrite filter_In, negb_true_iff.
  split; intros [H1 H2]; split; try exact H1.
  - intros ->. rewrite (proj2 (str_eqb_eq x x) eq_refl) in H2. discriminate.
  - destruct (str_eqb x y) eqn:E; [|reflexivity].
    apply str_eqb_eq in E. congruence.
Qed.

Lemma strSetAdd_NoDup (s : list str) (x : str) : NoDup s -> NoDup (strSetAdd s x).
Proof.
  intros H. unfold strSetAdd. destruct (strSetHas s x) eqn:E; [exact H|].
  apply strSetHas_false in E. apply NoDup_app; [exact H | repeat constructor; intros [] |].
  intros a Ha [<- | []]. contradiction.
Qed.

Lemma strSetOf_spec (l : list str) :
  NoDup (strSetOf l) /\ forall x, In x (strSetOf l) <-> In x l.
Proof.
  unfold strSetOf.
  assert (H : forall acc,
             NoDup acc ->
             NoDup (fold_left strSetAdd l acc) /\
             forall x, In x (fold_left strSetAdd l acc) <-> In x acc \/ In x l).
  { induction l as [|y r IH]; intros acc Hacc; cbn [fold_left].
    - split; [exact Hacc|]. intros x. simpl. tauto.
    - destruct (IH (strSetAdd acc y) (strSetAdd_NoDup acc y Hacc)) as [H1 H2].
      split; [exact H1|]. intros x. rewrite H2, strSetAdd_In. simpl. intuition. }
  destruct (H [] (NoDup_nil _)) as [H1 H2]. split; [exact H1|].
  intros x. rewrite H2. simpl. tauto.
Qed.

(** The order of strings. *)
Lemma compareStrings_eq (a : str) : forall b, compareStrings a b = 0 <-> a = b.
Proof.
  induction a as [|x a IH]; intros [|y b]; cbn [compareStrings];
    try (split; [lia | discriminate]); [tauto|].
  destruct (N.ltb_spec x y); [split; [lia | intros H'; injection H' as -> _; lia]|].
  destruct (N.ltb_spec y x); [split; [lia | intros H'; injection H' as -> _; lia]|].
  rewrite IH. assert (x = y) by lia. subst. split; [intros ->; reflexivity|].
  intros H'. injection H' as ->. reflexivity.
Qed.

Lemma compareStrings_flip (a : str) : forall b, compareStrings b a = - compareStrings a b.
Proof.
  induction a as [|x a IH]; intros [|y b]; cbn [compareStrings]; try reflexivity.
  destruct (N.ltb_spec x y), (N.ltb_spec y x); try reflexivity; try lia.
  apply IH.
Qed.

Lemma compareStrings_trans (a : str) :
  forall b c,
    compareStrings a b <= 0 -> compareStrings b c <= 0 -> compareStrings a c <= 0.
Proof.
  induction a as [|x a IH]; intros [|y b] [|z c]; cbn [compareStrings]; try lia.
  destruct (N.ltb_spec x y), (N.ltb_spec y x), (N.ltb_spec y z), (N.ltb_spec z y),
           (N.ltb_spec x z), (N.ltb_spec z x); try lia.
  apply IH.
Qed.

Section SortWith.

Context {A : Type} (cmp : A -> A -> Z).

Hypothesis cmp_total : forall a b, 0 < cmp a b -> cmp b a <= 0.
Hypothesis cmp_trans : forall a b c, cmp a b <= 0 -> cmp b c <= 0 -> cmp a c <= 0.

Lemma insertSorted_perm_with (x : A) (l : list A) :
  Permutation (x :: l) (insertSorted cmp x l).
Proof.
  induction l as [|y r IH]; simpl; [reflexivity|].
  destruct (cmp x y <=? 0); [reflexivity|].
  rewrite perm_swap. apply perm_skip, IH.
Qed.

Lemma sort_perm_with (l : list A) : Permutation l (sort cmp l).
Proof.
  induction l as [|x r IH]; simpl; [reflexivity|].
  rewrite <- insertSorted_perm_with. apply perm_skip, IH.
Qed.

Lemma insertSorted_sorted_with (x : A) (l : list A) :
  StronglySorted (fun a b => cmp a b <= 0) l ->
  StronglySorted (fun a b => cmp a b <= 0) (insertSorted cmp x l).
Proof.
  induction 1 as [|y r Hr IH Hy]; simpl.
  - constructor; constructor.
  - destruct (Z.leb_spec (cmp x y) 0) as [Hc | Hc].
    + constructor; [constructor; assumption|].
      constructor; [exact Hc|].
      eapply Forall_impl; [|exact Hy]. cbv beta. intros z Hz. eapply cmp_trans; eassumption.
    + constructor; [exact IH|].
      eapply Permutation_Forall; [apply insertSorted_perm_with|].
      constructor; [apply cmp_total; exact Hc | exact Hy].
Qed.

Lemma sort_sorted_with (l : list A) :
  StronglySorted (fun a b => cmp a b <= 0) (sort cmp l).
Proof.
  induction l as [|x r IH]; simpl; [constructor|].
  apply insertSorted_sorted_with, IH.
Qed.

End SortWith.

Lemma sorted_strict (l : list str) :
  StronglySorted (fun a b => compareStrings a b <= 0) l -> NoDup l ->
  StronglySorted (fun a b => compareStrings a b < 0) l.
Proof.
  induction 1 as [|x r Hr IH Hx]; intros Hnd; [constructor|].
  inversion Hnd as [|? ? Hxr Hnd']; subst.
  constructor; [apply IH, Hnd'|].
  rewrite Forall_forall in *. intros z Hz. specialize (Hx z Hz).
  assert (compareStrings x z <> 0).
  { intros E. apply compareStrings_eq in E. subst. contradiction. }
  lia.
Qed.

Section Pages.

Variable SimplifiedTVItem : Type.
Variable title : SimplifiedTVItem -> str.
Variable data_search :
  str -> list SimplifiedTVItem -> bool -> SearchResult SimplifiedTVItem.

Let Page := MainPage SimplifiedTVItem.

Lemma selected_In (p : Page) (item : SimplifiedTVItem) :
  isSelected SimplifiedTVItem title p item = true <->
  In (title item) (selectedBroadcasts SimplifiedTVItem p).
Proof.
  apply (strSetHas_In (selectedBroadcasts SimplifiedTVItem p) (title item)).
Qed.

Lemma nonempty_len {A : Type} (l : list A) : (0 <? len l) = true <-> l <> [].
Proof.
  destruct l as [|x r]; [split; [discriminate | contradiction]|].
  rewrite len_cons. pose proof (len_nonneg r). split; [discriminate|].
  intros _. apply Z.ltb_lt. lia.
Qed.

(** The result of [search] depends on the selection through its members
    only. *)
Lemma search_selection_ext (p p' : Page) :
  data _ p = data _ p' -> query _ p = query _ p' -> subtitles _ p = subtitles _ p' ->
  (forall x, In x (selectedBroadcasts _ p) <-> In x (selectedBroadcasts _ p')) ->
  searchResult _ (search _ title data_search p)
  = searchResult _ (search _ title data_search p').
Proof.
  intros Hd Hq Hs Hsel.
  assert (Hlen : (0 <? len (selectedBroadcasts _ p)) = (0 <? len (selectedBroadcasts _ p'))).
  { destruct (selectedBroadcasts _ p) as [|a r], (selectedBroadcasts _ p') as [|a' r'];
      try reflexivity.
    - destruct (proj2 (Hsel a') (or_introl eq_refl)).
    - destruct (proj1 (Hsel a) (or_introl eq_refl)). }
  assert (Hf : forall l, filter (isSelected _ title p) l = filter (isSelected _ title p') l).
  { intros l. apply filter_ext. intros item.
    destruct (isSelected _ title p item) eqn:E, (isSelected _ title p' item) eqn:E';
      try reflexivity.
    - apply selected_In, Hsel, selected_In in E. congruence.
    - apply selected_In, Hsel, selected_In in E'. congruence. }
  unfold search, setSearchResult. rewrite <- Hd, <- Hq, <- Hs, <- Hlen.
  destruct (len (query _ p) <? 3); cbn [searchResult]; rewrite Hf; reflexivity.
Qed.

(** [search] writes [searchResult] only. *)
Lemma search_frame (p : Page) :
  data _ (search _ title data_search p) = data _ p /\
  query _ (search _ title data_search p) = query _ p /\
  subtitles _ (search _ title data_search p) = subtitles _ p /\
  selectedBroadcasts _ (search _ title data_search p) = selectedBroadcasts _ p.
Proof.
  unfold search, setSearchResult.
  destruct (len (query _ p) <? 3); repeat split; reflexivity.
Qed.

Lemma toggleBroadcast_frame (t : str) (p : Page) :
  data _ (toggleBroadcast _ title data_search t p) = data _ p /\
  query _ (toggleBroadcast _ title data_search t p) = query _ p /\
  subtitles _ (toggleBroadcast _ title data_search t p) = subtitles _ p /\
  selectedBroadcasts _ (toggleBroadcast _ title data_search t p)
  = (if strSetHas (selectedBroadcasts _ p) t
     then strSetDelete (selectedBroadcasts _ p) t
     else strSetAdd (selectedBroadcasts _ p) t).
Proof.
  unfold toggleBroadcast.
  match goal with
  | |- context [search _ _ _ ?q] => destruct (search_frame q) as (H1 & H2 & H3 & H4)
  end.
  rewrite H1, H2, H3, H4. repeat split; reflexivity.
Qed.

End Pages.

End PageMore.

(** [search] reads the query, the data and the selection only: run again
    on its own result it changes nothing. *)
Lemma search_idempotent :
  forall (SimplifiedTVItem : Type) (title : SimplifiedTVItem -> str)
         (data_search : str -> list SimplifiedTVItem -> bool ->
                        MainPage.SearchResult SimplifiedTVItem)
         (p : MainPage.MainPage SimplifiedTVItem),
    MainPage.search _ title data_search (MainPage.search _ title data_search p)
    = MainPage.search _ title data_search p.
Proof.
  intros Item title data_search p. unfold MainPage.search, MainPage.setSearchResult.
  destruct (len (MainPage.query Item p) <? 3) eqn:E;
    cbn [MainPage.query MainPage.data MainPage.selectedBroadcasts MainPage.subtitles];
    rewrite E; reflexivity.
Qed.

(** X16.  Whatever the query, when broadcasts are selected every item of
    the result has a selected title; and when [data_search] returns items
    of the list it is given, every item of the result is an item of
    [data]. *)
Theorem search_items_selected :
  forall (SimplifiedTVItem : Type) (title : SimplifiedTVItem -> str)
         (data_search : str -> list SimplifiedTVItem -> bool ->
                        MainPage.SearchResult SimplifiedTVItem)
         (p : MainPage.MainPage SimplifiedTVItem) (item : SimplifiedTVItem),
    In item (MainPage.items _ (MainPage.searchResult _
                                 (MainPage.search _ title data_search p))) ->
    (MainPage.selectedBroadcasts _ p <> [] ->
     In (title item) (MainPage.selectedBroadcasts _ p)) /\
    ((forall q d b, incl (MainPage.items _ (data_search q d b)) d) ->
     In item (MainPage.data _ p)).
Proof.
  intros Item title data_search p item.
  unfold MainPage.search, MainPage.setSearchResult.
  destruct (len (MainPage.query Item p) <? 3);
    cbn [MainPage.searchResult MainPage.items];
    destruct (0 <? len (MainPage.selectedBroadcasts Item p)) eqn:El; intros Hin.
  - apply filter_In in Hin as [Hd Hs]. apply PageMore.selected_In in Hs. auto.
  - split; [|auto]. intros Hne. apply PageMore.nonempty_len in Hne. congruence.
  - apply filter_In in Hin as [Hd Hs]. apply PageMore.selected_In in Hs.
    split; [auto|]. intros Hincl. eapply Hincl, Hd.
  - split.
    + intros Hne. apply PageMore.nonempty_len in Hne. congruence.
    + intros Hincl. eapply Hincl, Hin.
Qed.

Lemma search_items_selected_witness :
  (@nil (list N) <> [] -> In (u "ZIB 2") []) /\
  ((forall (q : list N) (d : list (list N)) (b : bool),
       incl (MainPage.items _ {| MainPage.items := d; MainPage.tokens := [] |}) d) ->
   In (u "ZIB 2") [u "ZIB 1"; u "ZIB 2"]).
Proof.
  apply (search_items_selected (list N) (fun item => item)
           (fun _ d _ => {| MainPage.items := d; MainPage.tokens := [] |})
           {| MainPage.data := [u "ZIB 1"; u "ZIB 2"];
              MainPage.searchResult := {| MainPage.items := []; MainPage.tokens := [] |};
              MainPage.subtitles := true;
              MainPage.query := u "zib";
              MainPage.selectedBroadcasts := [] |} (u "ZIB 2")).
  right. left. reflexivity.
Defined.

(** X17.  Toggling a broadcast twice gives back the selection, as a set,
    and the result of the search: the second toggle undoes the first. *)
Theorem toggleBroadcast_twice :
  forall (SimplifiedTVItem : Type) (title : SimplifiedTVItem -> str)
         (data_search : str -> list SimplifiedTVItem -> bool ->
                        MainPage.SearchResult SimplifiedTVItem)
         (p : MainPage.MainPage SimplifiedTVItem) (t : str),
    let p2 := MainPage.toggleBroadcast _ title data_search t
                (MainPage.toggleBroadcast _ title data_search t p) in
    (forall x,
        MainPage.strSetHas (MainPage.selectedBroadcasts _ p2) x
        = MainPage.strSetHas (MainPage.selectedBroadcasts _ p) x) /\
    MainPage.searchResult _ p2
    = MainPage.searchResult _ (MainPage.search _ title data_search p).
Proof.
  intros Item title data_search p t p2.
  set (S0 := MainPage.selectedBroadcasts Item p).
  set (S1 := if MainPage.strSetHas S0 t
             then MainPage.strSetDelete S0 t else MainPage.strSetAdd S0 t).
  set (S2 := if MainPage.strSetHas S1 t
             then MainPage.strSetDelete S1 t else MainPage.strSetAdd S1 t).
  assert (Hmem : forall x, In x S2 <-> In x S0).
  { intros x. unfold S2, S1. destruct (MainPage.strSetHas S0 t) eqn:E0.
    - apply PageMore.strSetHas_In in E0.
      assert (E1 : MainPage.strSetHas (MainPage.strSetDelete S0 t) t = false).
      { apply PageMore.strSetHas_false. rewrite PageMore.strSetDelete_In. tauto. }
      rewrite E1, PageMore.strSetAdd_In, PageMore.strSetDelete_In.
      destruct (str_eqb x t) eqn:Ext.
      + apply str_eqb_eq in Ext. subst. tauto.
      + assert (x <> t) by (intros ->; rewrite (proj2 (str_eqb_eq t t) eq_refl) in Ext;
                            discriminate).
        tauto.
    - apply PageMore.strSetHas_false in E0.
      assert (E1 : MainPage.strSetHas (MainPage.strSetAdd S0 t) t = true).
      { apply PageMore.strSetHas_In, PageMore.strSetAdd_In. auto. }
      rewrite E1, PageMore.strSetDelete_In, PageMore.strSetAdd_In.
      split; [tauto|]. intros Hx. split; [auto|]. intros ->. contradiction. }
  destruct (PageMore.toggleBroadcast_frame Item title data_search t p)
    as (Hd1 & Hq1 & Hs1 & Hsel1).
  destruct (PageMore.toggleBroadcast_frame Item title data_search t
              (MainPage.toggleBroadcast Item title data_search t p))
    as (Hd2 & Hq2 & Hs2 & Hsel2).
  fold p2 in Hd2, Hq2, Hs2, Hsel2. rewrite Hsel1 in Hsel2.
  fold S0 in Hsel2. fold S1 in Hsel2. fold S2 in Hsel2.
  split.
  - intros x. rewrite Hsel2.
    destruct (MainPage.strSetHas S2 x) eqn:E2, (MainPage.strSetHas S0 x) eqn:E0;
      try reflexivity.
    + apply PageMore.strSetHas_In, Hmem, PageMore.strSetHas_In in E2. congruence.
    + apply PageMore.strSetHas_In, Hmem, PageMore.strSetHas_In in E0. congruence.
  - unfold p2. unfold MainPage.toggleBroadcast at 1.
    apply PageMore.search_selection_ext;
      cbn [MainPage.data MainPage.query MainPage.subtitles MainPage.selectedBroadcasts].
    + exact Hd1.
    + exact Hq1.
    + exact Hs1.
    + intros x. rewrite Hsel1. apply Hmem.
Qed.

(** X18.  [getUniqueBroadcasts] lists the titles of the items of [data],
    each once, in strictly ascending order of their code units. *)
Theorem getUniqueBroadcasts_sorted :
  forall (SimplifiedTVItem : Type) (title : SimplifiedTVItem -> str)
         (p : MainPage.MainPage SimplifiedTVItem),
    StronglySorted (fun a b => MainPage.compareStrings a b < 0)
                   (MainPage.getUniqueBroadcasts _ title p) /\
    (forall t,
        In t (MainPage.getUniqueBroadcasts _ title p) <->
        exists item, In item (MainPage.data _ p) /\ title item = t).
Proof.
  intros Item title p. unfold MainPage.getUniqueBroadcasts.
  destruct (PageMore.strSetOf_spec (map title (MainPage.data Item p))) as [Hnd Hin].
  pose proof (PageMore.sort_perm_with MainPage.compareStrings
                (MainPage.strSetOf (map title (MainPage.data Item p)))) as Hp.
  split.
  - apply PageMore.sorted_strict.
    + apply PageMore.sort_sorted_with.
      * intros a b H. rewrite PageMore.compareStrings_flip. lia.
      * intros a b c. apply PageMore.compareStrings_trans.
    + apply (Permutation_NoDup Hp Hnd).
  - intros t. split.
    + intros H. apply (Permutation_in _ (Permutation_sym Hp)), Hin, in_map_iff in H.
      destruct H as (item & E & Hitem). eauto.
    + intros (item & Hitem & <-). apply (Permutation_in _ Hp), Hin, in_map, Hitem.
Qed.

(** * [formatDuration] *)

Module DurationFacts.

Lemma u_cons (c : Ascii.ascii) (s : String.string) :
  u (String.String c s) = Ascii.N_of_ascii c :: u s.
Proof. reflexivity. Qed.

Lemma u_injective (s : String.string) : forall s', u s = u s' -> s = s'.
Proof.
  induction s as [|c s IH]; intros [|c' s'] H; try discriminate; [reflexivity|].
  rewrite !u_cons in H. injection H as Hc Hs.
  f_equal; [|apply IH, Hs].
  rewrite <- (Ascii.ascii_N_embedding c), <- (Ascii.ascii_N_embedding c'), Hc. reflexivity.
Qed.

Lemma to_int_proper (n : Z) :
  Z.to_int n <> Decimal.Pos Decimal.Nil /\ Z.to_int n <> Decimal.Neg Decimal.Nil.
Proof.
  destruct n as [|p|p]; cbn [Z.to_int]; split; try discriminate;
    intros H; injection H as H; exact (DecimalPos.Unsigned.to_uint_nonnil p H).
Qed.

(** Different integers have different decimal texts. *)
Lemma numberToString_injective (a b : Z) : numberToString a = numberToString b -> a = b.
Proof.
  unfold numberToString. intros H. apply u_injective in H.
  destruct (to_int_proper a) as [Ha1 Ha2]. destruct (to_int_proper b) as [Hb1 Hb2].
  pose proof (DecimalString.NilZero.isi _ Ha1 Ha2) as Ja.
  pose proof (DecimalString.NilZero.isi _ Hb1 Hb2) as Jb.
  rewrite H in Ja. rewrite Ja in Jb. injection Jb as Jb.
  rewrite <- (DecimalZ.of_to a), <- (DecimalZ.of_to b), Jb. reflexivity.
Qed.

Lemma uint_digits (d : Decimal.uint) :
  Forall isDigit (u (DecimalString.NilEmpty.string_of_uint d)).
Proof.
  induction d; cbn [DecimalString.NilEmpty.string_of_uint]; try (constructor; fail);
    rewrite u_cons; (constructor; [unfold isDigit; vm_compute; split; discriminate | assumption]).
Qed.

(** The text of a number that is not negative is made of digits, and of
    one digit at least. *)
Lemma numberToString_digits (n : Z) :
  0 <= n -> Forall isDigit (numberToString n) /\ numberToString n <> [].
Proof.
  intros Hn. unfold numberToString. destruct n as [|p|p]; [| |lia].
  - split; [|discriminate].
    constructor; [unfold isDigit; vm_compute; split; discriminate | constructor].
  - cbn [Z.to_int DecimalString.NilZero.string_of_int].
    pose proof (DecimalPos.Unsigned.to_uint_nonnil p) as Hnil.
    unfold DecimalString.NilZero.string_of_uint.
    destruct (Pos.to_uint p) eqn:E; try contradiction;
      rewrite <- E in *;
      (split; [rewrite E; apply uint_digits | rewrite E; discriminate]).
Qed.

(** A run of digits before a character that is no digit can be read in
    one way only. *)
Lemma digits_prefix_unique (D1 : str) :
  forall D2 c1 c2 r1 r2,
    Forall isDigit D1 -> Forall isDigit D2 -> ~ isDigit c1 -> ~ isDigit c2 ->
    D1 ++ c1 :: r1 = D2 ++ c2 :: r2 ->
    D1 = D2 /\ c1 = c2 /\ r1 = r2.
Proof.
  induction D1 as [|x D1 IH]; intros [|y D2] c1 c2 r1 r2 H1 H2 Hc1 Hc2 H; cbn [app] in H.
  - injection H as -> ->. auto.
  - injection H as -> _. inversion H2; subst. contradiction.
  - injection H as -> _. inversion H1; subst. contradiction.
  - injection H as -> H. inversion H1; subst. inversion H2; subst.
    destruct (IH D2 c1 c2 r1 r2) as (-> & -> & ->); auto.
Qed.

Lemma unitLetter_not_digit (c : N) : unitLetter c -> ~ isDigit c.
Proof. unfold unitLetter, isDigit. intros [-> | [-> | ->]]; lia. Qed.

Lemma renderPart_eq (p q : Z * N) (r1 r2 : str) :
  properPart p -> properPart q ->
  renderPart p ++ r1 = renderPart q ++ r2 -> p = q /\ r1 = r2.
Proof.
  intros [Hp1 Hp2] [Hq1 Hq2]. unfold renderPart. rewrite <- !app_assoc. cbn [app].
  intros H.
  destruct (digits_prefix_unique _ _ _ _ _ _
              (proj1 (numberToString_digits _ Hp1)) (proj1 (numberToString_digits _ Hq1))
              (unitLetter_not_digit _ Hp2) (unitLetter_not_digit _ Hq2) H)
    as (Hn & Hc & Hr).
  apply numberToString_injective in Hn.
  split; [|exact Hr]. destruct p, q. cbn [fst snd] in *. congruence.
Qed.

Lemma renderPart_nonempty (p : Z * N) : renderPart p <> [].
Proof. unfold renderPart. destruct (numberToString (fst p)); discriminate. Qed.

Lemma tail_injective (ps : list (Z * N)) :
  forall qs,
    Forall properPart ps -> Forall properPart qs ->
    flat_map (fun y => u " " ++ y) (map renderPart ps)
    = flat_map (fun y => u " " ++ y) (map renderPart qs) ->
    ps = qs.
Proof.
  induction ps as [|p ps IH]; intros [|q qs] Hp Hq H; cbn [map flat_map] in H;
    try discriminate; [reflexivity|].
  inversion Hp as [|? ? Hp1 Hp2]; subst. inversion Hq as [|? ? Hq1 Hq2]; subst.
  change (u " ") with [32%N] in H. cbn [app] in H. injection H as H.
  apply renderPart_eq in H as [-> H]; try assumption.
  f_equal. apply IH; assumption.
Qed.

(** The text of a list of parts determines the parts. *)
Lemma renderParts_injective (ps qs : list (Z * N)) :
  Forall properPart ps -> Forall properPart qs ->
  renderParts ps = renderParts qs -> ps = qs.
Proof.
  unfold renderParts. intros Hp Hq H.
  destruct ps as [|p ps], qs as [|q qs]; cbn [map join] in H.
  - reflexivity.
  - symmetry in H. apply app_eq_nil in H as [H _]. destruct (renderPart_nonempty q H).
  - apply app_eq_nil in H as [H _]. destruct (renderPart_nonempty p H).
  - inversion Hp as [|? ? Hp1 Hp2]; subst. inversion Hq as [|? ? Hq1 Hq2]; subst.
    apply renderPart_eq in H as [-> H]; try assumption.
    f_equal. apply tail_injective; assumption.
Qed.

Lemma formatDuration_parts (d : Z) :
  d <> 0 -> formatDuration d = renderParts (durationParts d).
Proof.
  intros Hd. unfold formatDuration, durationParts, renderParts.
  destruct (Z.eqb_spec d 0); [contradiction|]. cbn [filter fst].
  destruct (0 <? d / 3600), (0 <? Z.rem d 3600 / 60), (0 <? Z.rem d 60); reflexivity.
Qed.

Lemma durationParts_proper (d : Z) : Forall properPart (durationParts d).
Proof.
  unfold durationParts. apply Forall_forall. intros part H.
  apply filter_In in H as [H Hpos]. apply Z.ltb_lt in Hpos. split; [lia|].
  unfold unitLetter. cbn in H. destruct H as [<- | [<- | [<- | []]]]; cbn; auto.
Qed.

Lemma durationParts_injective (d1 d2 : Z) :
  0 < d1 -> 0 < d2 -> durationParts d1 = durationParts d2 -> d1 = d2.
Proof.
  intros H1 H2. unfold durationParts. cbn [filter fst].
  destruct (Z.ltb_spec 0 (d1 / 3600)), (Z.ltb_spec 0 (Z.rem d1 3600 / 60)),
           (Z.ltb_spec 0 (Z.rem d1 60)),
           (Z.ltb_spec 0 (d2 / 3600)), (Z.ltb_spec 0 (Z.rem d2 3600 / 60)),
           (Z.ltb_spec 0 (Z.rem d2 60));
    intros E; try discriminate; try (injection E; intros);
    Z.to_euclidean_division_equations; lia.
Qed.

End DurationFacts.

Lemma formatDuration_texts :
  (forall d, formatDuration d = [] <-> d < 0) /\
  (forall d1 d2,
      0 <= d1 -> 0 <= d2 -> formatDuration d1 = formatDuration d2 -> d1 = d2).
Proof.
  assert (Hne : forall d, 0 < d -> durationParts d <> []).
  { intros d Hd. unfold durationParts. cbn [filter fst].
    destruct (Z.ltb_spec 0 (d / 3600)), (Z.ltb_spec 0 (Z.rem d 3600 / 60)),
             (Z.ltb_spec 0 (Z.rem d 60)); try discriminate.
    Z.to_euclidean_division_equations; lia. }
  assert (Hzero : forall d, 0 < d -> formatDuration d <> u "0s").
  { intros d Hd H. rewrite DurationFacts.formatDuration_parts in H by lia.
    change (u "0s") with (renderParts [(0, 115%N)]) in H.
    apply DurationFacts.renderParts_injective in H.
    - unfold durationParts in H.
      assert (Hin : In (0, 115%N)
                       (filter (fun part => 0 <? fst part)
                          [ (d / 3600, 104%N); (Z.rem d 3600 / 60, 109%N);
                            (Z.rem d 60, 115%N) ]))
        by (rewrite H; left; reflexivity).
      apply filter_In in Hin as [_ Hin]. discriminate.
    - apply DurationFacts.durationParts_proper.
    - repeat constructor; unfold unitLetter; cbn; auto; lia. }
  split.
  - intros d. split.
    + intros H. destruct (Z.lt_trichotomy d 0) as [Hd | [-> | Hd]]; [exact Hd | discriminate |].
      rewrite DurationFacts.formatDuration_parts in H by lia.
      change (@nil N) with (renderParts []) in H.
      apply DurationFacts.renderParts_injective in H;
        [destruct (Hne d Hd H) | apply DurationFacts.durationParts_proper | constructor].
    + intros Hd. rewrite DurationFacts.formatDuration_parts by lia.
      unfold durationParts. cbn [filter fst].
      destruct (Z.ltb_spec 0 (d / 3600)), (Z.ltb_spec 0 (Z.rem d 3600 / 60)),
               (Z.ltb_spec 0 (Z.rem d 60)); try reflexivity;
        Z.to_euclidean_division_equations; lia.
  - intros d1 d2 H1 H2 H.
    destruct (Z.eq_dec d1 0) as [-> | Hd1], (Z.eq_dec d2 0) as [-> | Hd2].
    + reflexivity.
    + symmetry in H. destruct (Hzero d2 ltac:(lia) H).
    + destruct (Hzero d1 ltac:(lia) H).
    + rewrite !DurationFacts.formatDuration_parts in H by assumption.
      apply DurationFacts.renderParts_injective in H;
        try apply DurationFacts.durationParts_proper.
      apply DurationFacts.durationParts_injective; [lia | lia | exact H].
Qed.

(** X19.  On whole numbers of seconds, [formatDuration] gives the empty
    text for the negative durations and for nothing else, and two
    durations that are not negative and differ have different texts. *)
Theorem formatDuration_injective (d1 d2 : Z) :
  safeInteger d1 -> safeInteger d2 ->
  (formatDuration d1 = [] <-> d1 < 0) /\
  (0 <= d1 -> 0 <= d2 -> formatDuration d1 = formatDuration d2 -> d1 = d2).
Proof.
  intros _ _. split.
  - apply (proj1 formatDuration_texts).
  - apply (proj2 formatDuration_texts).
Qed.

Lemma formatDuration_injective_witness :
  (formatDuration 3725 = [] <-> 3725 < 0) /\
  (0 <= 3725 -> 0 <= 3665 -> formatDuration 3725 = formatDuration 3665 -> 3725 = 3665).
Proof.
  apply (formatDuration_injective 3725 3665); unfold safeInteger; lia.
Defined.
